(** * Gap extraction engine of the contemplation plugin (lib/extractor.js)

    A shallow embedding of the extractor module: the regular expressions it
    declares, [normalizeText], [stripContextBlocks], [extractGapsFromText]
    and [identifyGaps], together with the parts of the JavaScript runtime
    they rest on (string methods, regular-expression matching, property
    access on values).

    Strings.  A JavaScript string is a sequence of UTF-16 code units.  The
    embedding covers the code units below 256 (Latin-1): a string is a
    [list ascii], the character of code [n] standing for the code unit [n].
    All the literals of the module, [(c)] (169) and the sharp s (223)
    included, are in that range.

    Numbers.  The entropy score and its threshold are modelled by their exact
    rational value ([Q]); counts and clock readings are integers ([Z]).
    Numbers inside messages are integer-valued and print as JavaScript
    prints them, in exponent form from 10^21 on.

    Errors.  Reading a property of [null] or [undefined] throws, and so does
    the conversion to a string of an object whose own [toString] is not
    callable; both reach the caller of identifyGaps as a TypeError.

    Effects.  The module reads the wall clock ([Date.now()], [new Date()])
    and keeps state between calls in the [lastIndex] of its global RegExp
    objects.  Both are explicit here: identifyGaps takes the clock and the
    [lastIndex] of every pattern, and returns the [lastIndex] it leaves.  A
    call returns, throws, or runs for ever in a [while] loop; the last is
    shown never to happen.

    Two functions of the plugin around the extractor are embedded as well:
    [deepMerge], which index.js uses to lay the user's configuration over
    the defaults, and [buildPrompt] of lib/reflect.js, which writes the
    prompt of a contemplation pass. *)

From Stdlib Require Import Ascii String DecimalString.
From Stdlib Require DecimalPos DecimalZ.
From Stdlib Require Import ZArith QArith Bool Arith Lia List.
Import ListNotations.

Close Scope Q_scope.
Set Implicit Arguments.

(** ** Characters *)

Module Char.

Definition code (c : ascii) : N := N_of_ascii c.

Definition between (lo hi : N) (c : ascii) : bool :=
  (N.leb lo (code c) && N.leb (code c) hi)%bool.

(** WhiteSpace and LineTerminator code units (the set of [\s] and of
    [String.prototype.trim]) below 256. *)
Definition isSpace (c : ascii) : bool :=
  (between 9 13 c || N.eqb (code c) 32 || N.eqb (code c) 160)%bool.

(** LineTerminator: what [.] refuses. *)
Definition isLineTerminator (c : ascii) : bool :=
  (N.eqb (code c) 10 || N.eqb (code c) 13)%bool.

Definition isDigit (c : ascii) : bool := between 48 57 c.

(** [String.prototype.toLowerCase] on one code unit: A-Z and the Latin-1
    capitals 192..222 (the multiplication sign 215 apart) move up by 32. *)
Definition toLower (c : ascii) : ascii :=
  if (between 65 90 c || (between 192 222 c && negb (N.eqb (code c) 215)))%bool
  then ascii_of_N (code c + 32) else c.

(** The Canonicalize operation of case-insensitive matching (no unicode
    flag): the upper-case form when it is a single code unit.  The sharp s
    (223) has a two-letter upper case and stays; micro sign (181) and y
    diaeresis (255) have an upper case outside Latin-1 that no other code unit
    below 256 shares, so leaving them in place gives the same equalities. *)
Definition canonicalize (c : ascii) : ascii :=
  if (between 97 122 c || (between 224 254 c && negb (N.eqb (code c) 247)))%bool
  then ascii_of_N (code c - 32) else c.

Definition eqb_ci (ignoreCase : bool) (a b : ascii) : bool :=
  if ignoreCase then Ascii.eqb (canonicalize a) (canonicalize b)
  else Ascii.eqb a b.

End Char.

(** ** Strings *)

Abbreviation jsstring := (list ascii) (only parsing).

Definition str (s : string) : jsstring := list_ascii_of_string s.

Module Str.

Fixpoint dropWhile (f : ascii -> bool) (s : jsstring) : jsstring :=
  match s with
  | c :: s' => if f c then dropWhile f s' else s
  | [] => []
  end.

Definition trim (s : jsstring) : jsstring :=
  rev (dropWhile Char.isSpace (rev (dropWhile Char.isSpace s))).

Definition toLowerCase (s : jsstring) : jsstring := map Char.toLower s.

Fixpoint startsWith (s prefix : jsstring) : bool :=
  match prefix, s with
  | [], _ => true
  | p :: prefix', c :: s' => (Ascii.eqb p c && startsWith s' prefix')%bool
  | _ :: _, [] => false
  end.

Definition endsWith (s suffix : jsstring) : bool :=
  startsWith (rev s) (rev suffix).

Fixpoint includes (s needle : jsstring) : bool :=
  (startsWith s needle ||
   match s with
   | _ :: s' => includes s' needle
   | [] => false
   end)%bool.

(** [s.split(sep)] for a one-character separator. *)
Fixpoint splitOn (sep : ascii) (s : jsstring) : list jsstring :=
  match s with
  | [] => [[]]
  | c :: s' =>
      if Ascii.eqb c sep then [] :: splitOn sep s'
      else match splitOn sep s' with
           | piece :: pieces => (c :: piece) :: pieces
           | [] => [[c]]
           end
  end.

Fixpoint join (sep : jsstring) (parts : list jsstring) : jsstring :=
  match parts with
  | [] => []
  | [p] => p
  | p :: rest => p ++ sep ++ join sep rest
  end.

(** [s.slice(0, n)]. *)
Definition slice0 (n : nat) (s : jsstring) : jsstring := firstn n s.

(** Decimal form of an integer, as [String(n)] and template literals print
    an integer-valued number below 10^21 (a clock reading, an index). *)
Definition ofZ (n : Z) : jsstring := str (NilZero.string_of_int (Z.to_int n)).

(** [String(n)] for any integer-valued Number, [n] being the integer whose
    digits JavaScript prints for it: positional notation below 10^21; from
    there on the digits up to the last one that is not 0, with a point after
    the first when more follow, and the exponent. *)
Definition ofNumber (n : Z) : jsstring :=
  if (Z.abs n <? 10 ^ 21)%Z then ofZ n
  else
    let digits := ofZ (Z.abs n) in
    let significant := rev (dropWhile (Ascii.eqb "0") (rev digits)) in
    (if (n <? 0)%Z then str "-" else [])
    ++ match significant with
       | [] => []
       | [d] => [d]
       | d :: more => d :: "."%char :: more
       end
    ++ str "e+" ++ ofZ (Z.of_nat (length digits - 1)).

End Str.

(** [arr.slice(-n)]: the last [n] elements, the whole array when shorter. *)
Definition sliceLast {A} (n : nat) (l : list A) : list A :=
  skipn (length l - n) l.

(** ** Regular expressions

    The fragment of the pattern language the module uses.  Every quantifier
    of the module other than [?] ranges over a one-character atom ([.], [\s],
    [\d] or a bracket class), so [Rep] takes a class.  Only [match[0]] is ever
    read, so a capture group [Group] matches as its body. *)

Module Regex.

Inductive cls : Type :=
| Dot                         (* .       *)
| AnyChar                     (* [\s\S]  *)
| Space                       (* \s      *)
| Digit                       (* \d      *)
| Range (lo hi : ascii)       (* [lo-hi] *)
| OneOf (cs : jsstring)       (* [abc]   *)
| NoneOf (cs : jsstring).     (* [^abc]  *)

Inductive regex : Type :=
| Empty
| Lit (c : ascii)
| Class (k : cls)
| Seq (r1 r2 : regex)
| Alt (r1 r2 : regex)
| Opt (r : regex)                                        (* r?  *)
| Rep (greedy : bool) (min : nat) (max : option nat) (k : cls)
                                        (* k{min,max}, k{min,max}? *)
| Group (r : regex)                                      (* (r) *)
| Bol                                                    (* ^   *)
| Eol                                                    (* $   *)
| Ahead (r : regex)                                      (* (?=r)   *)
| Behind (k : cls).                                      (* (?<=k)  *)

(** A RegExp object: its pattern and the flags [i] and [g]. *)
Record RegExp : Type := mkRegExp {
  pattern : regex;
  ignoreCase : bool;
  global : bool
}.

(** *** Building patterns *)

Fixpoint lit_chars (s : jsstring) : regex :=
  match s with
  | [] => Empty
  | [c] => Lit c
  | c :: s' => Seq (Lit c) (lit_chars s')
  end.

Definition lit (s : string) : regex := lit_chars (str s).

Fixpoint seqs (rs : list regex) : regex :=
  match rs with
  | [] => Empty
  | [r] => r
  | r :: rs' => Seq r (seqs rs')
  end.

Fixpoint alts (rs : list regex) : regex :=
  match rs with
  | [] => Empty
  | [r] => r
  | r :: rs' => Alt r (alts rs')
  end.

(** [words "a|b|c"] is the group [(?:a|b|c)] of literal alternatives. *)
Definition words (ws : string) : regex :=
  alts (map lit_chars (Str.splitOn "|" (str ws))).

Definition plus (k : cls) : regex := Rep true 1 None k.
Definition star (k : cls) : regex := Rep true 0 None k.
Definition lazy_star (k : cls) : regex := Rep false 0 None k.
Definition at_least (n : nat) (k : cls) : regex := Rep true n None k.
Definition lazy_at_least (n : nat) (k : cls) : regex := Rep false n None k.
Definition exactly (n : nat) (k : cls) : regex := Rep true n (Some n) k.

(** *** Matching *)

Definition mem (cs : jsstring) (c : ascii) : bool := existsb (Ascii.eqb c) cs.

Definition cls_has (k : cls) (c : ascii) : bool :=
  match k with
  | Dot => negb (Char.isLineTerminator c)
  | AnyChar => true
  | Space => Char.isSpace c
  | Digit => Char.isDigit c
  | Range lo hi => Char.between (Char.code lo) (Char.code hi) c
  | OneOf cs => mem cs c
  | NoneOf cs => negb (mem cs c)
  end.

(** Under the [i] flag a class accepts a character when one of its members
    has the same canonical form; below 256 the candidates are the character
    itself and its two case forms. *)
Definition cls_mem (ic : bool) (k : cls) (c : ascii) : bool :=
  if ic then
    match k with
    | NoneOf cs =>
        negb (mem cs c || mem cs (Char.canonicalize c) || mem cs (Char.toLower c))
    | _ =>
        (cls_has k c || cls_has k (Char.canonicalize c) || cls_has k (Char.toLower c))%bool
    end
  else cls_has k c.

(** A position in the subject: the characters before it, last first, and
    the characters from it on. *)
Definition pos : Type := (jsstring * jsstring)%type.

Definition index (p : pos) : nat := length (fst p).

Definition room (max : option nat) : bool :=
  match max with
  | Some O => false
  | _ => true
  end.

(** Positions reachable from (before, rest) by [min]..[max] characters of
    class [k], in the order a backtracking matcher tries them: longest first
    when greedy, shortest first when lazy. *)
Fixpoint rep (ic greedy : bool) (k : cls) (min : nat) (max : option nat)
    (before rest : jsstring) : list pos :=
  let here := match min with O => [(before, rest)] | S _ => [] end in
  let more :=
    match rest with
    | c :: rest' =>
        if (cls_mem ic k c && room max)%bool
        then rep ic greedy k (pred min) (option_map pred max) (c :: before) rest'
        else []
    | [] => []
    end in
  if greedy then more ++ here else here ++ more.

(** [rmatch ic r p]: the positions where a match of [r] started at [p] can
    end, in backtracking order; the matcher's answer is the first one. *)
Fixpoint rmatch (ic : bool) (r : regex) (p : pos) : list pos :=
  match r with
  | Empty => [p]
  | Lit c =>
      match snd p with
      | x :: rest' => if Char.eqb_ci ic c x then [(x :: fst p, rest')] else []
      | [] => []
      end
  | Class k =>
      match snd p with
      | x :: rest' => if cls_mem ic k x then [(x :: fst p, rest')] else []
      | [] => []
      end
  | Seq r1 r2 => flat_map (rmatch ic r2) (rmatch ic r1 p)
  | Alt r1 r2 => rmatch ic r1 p ++ rmatch ic r2 p
  | Opt r1 => rmatch ic r1 p ++ [p]
  | Rep greedy min max k => rep ic greedy k min max (fst p) (snd p)
  | Group r1 => rmatch ic r1 p
  | Bol => match fst p with [] => [p] | _ :: _ => [] end
  | Eol => match snd p with [] => [p] | _ :: _ => [] end
  | Ahead r1 => match rmatch ic r1 p with [] => [] | _ :: _ => [p] end
  | Behind k =>
      match fst p with
      | x :: _ => if cls_mem ic k x then [p] else []
      | [] => []
      end
  end.

(** The match that starts exactly at [p], if any. *)
Definition match_at (re : RegExp) (p : pos) : option pos :=
  hd_error (rmatch (ignoreCase re) (pattern re) p).

(** Leftmost match at or after (before, rest): its start and its end. *)
Fixpoint search (re : RegExp) (before rest : jsstring) : option (pos * pos) :=
  match match_at re (before, rest) with
  | Some q => Some ((before, rest), q)
  | None =>
      match rest with
      | c :: rest' => search re (c :: before) rest'
      | [] => None
      end
  end.

(** The matched text [match[0]] between a start and an end position. *)
Definition matched (p q : pos) : jsstring :=
  firstn (index q - index p) (snd p).

(** The position of [text] at index [i]. *)
Definition at_index (text : jsstring) (i : nat) : pos :=
  (rev (firstn i text), skipn i text).

(** [re.exec(text)] of a global RegExp whose [lastIndex] is [lastIndex]:
    [None] for [null] (and [lastIndex] goes back to 0), else [match[0]] and
    the new [lastIndex]. *)
Definition exec (re : RegExp) (text : jsstring) (lastIndex : nat)
    : option (jsstring * nat) :=
  if length text <? lastIndex then None
  else
    match search re (fst (at_index text lastIndex)) (snd (at_index text lastIndex)) with
    | Some (p, q) => Some (matched p q, index q)
    | None => None
    end.

(** [re.test(text)] of a RegExp without the [g] flag. *)
Definition test (re : RegExp) (text : jsstring) : bool :=
  match search re [] text with
  | Some _ => true
  | None => false
  end.

(** [text.replace(re, by)]: every match when [re] is global, else the first.
    [skip] counts the characters of a match still to be dropped, [live] tells
    whether matches are still looked for.  An empty match leaves the next
    character in place and moves on by one, as AdvanceStringIndex does. *)
Fixpoint replace_from (re : RegExp) (by_ : jsstring) (before rest : jsstring)
    (skip : nat) (live : bool) {struct rest} : jsstring :=
  match skip with
  | S n =>
      match rest with
      | c :: rest' => replace_from re by_ (c :: before) rest' n live
      | [] => []
      end
  | O =>
      if live then
        match match_at re (before, rest) with
        | Some q =>
            by_ ++
            match rest with
            | c :: rest' =>
                match index q - length before with
                | O => c :: replace_from re by_ (c :: before) rest' 0 (global re)
                | S n => replace_from re by_ (c :: before) rest' n (global re)
                end
            | [] => []
            end
        | None =>
            match rest with
            | c :: rest' => c :: replace_from re by_ (c :: before) rest' 0 live
            | [] => []
            end
        end
      else rest
  end.

Definition replace (re : RegExp) (by_ : jsstring) (text : jsstring) : jsstring :=
  replace_from re by_ [] text 0 true.

(** [text.split(re)] (SplitMatcher is tried at each index below the length;
    [cur] is the piece since the last separator, last character first). *)
Fixpoint split_from (re : RegExp) (before rest cur : jsstring) (skip : nat)
    {struct rest} : list jsstring :=
  match rest with
  | [] => [rev cur]
  | c :: rest' =>
      match skip with
      | S n => split_from re (c :: before) rest' cur n
      | O =>
          match match_at re (before, rest) with
          | Some q =>
              match index q - length before with
              | O =>
                  match cur with
                  | [] => split_from re (c :: before) rest' [c] 0
                  | _ :: _ => rev cur :: split_from re (c :: before) rest' [c] 0
                  end
              | S n => rev cur :: split_from re (c :: before) rest' [] n
              end
          | None => split_from re (c :: before) rest' (c :: cur) 0
          end
      end
  end.

Definition split (re : RegExp) (text : jsstring) : list jsstring :=
  match text with
  | [] => match match_at re ([], []) with Some _ => [] | None => [[]] end
  | _ :: _ => split_from re [] text [] 0
  end.

End Regex.

(** ** Values

    What a caller can put in the message list: JSON-like values.  An
    object is a plain object (its prototype is [Object.prototype]) with own
    data properties, as [JSON.parse] builds it; no value is callable.
    Numbers are integer-valued, [VNum n] being the Number that JavaScript
    prints with the digits of [n]. *)

#[warnings="-register-all"] Inductive value : Type :=
| VUndefined
| VNull
| VBool (b : bool)
| VNum (n : Z)
| VStr (s : jsstring)
| VArr (items : list value)
| VObj (fields : list (string * value)).

Inductive error : Type :=
| TypeError.

(** The result of evaluating an expression or a call: a value, or a throw. *)
Inductive completion (A : Type) : Type :=
| Normal (a : A)
| Throw (e : error).

Arguments Normal {A} a.
Arguments Throw {A} e.

Module Value.

(** ToBoolean. *)
Definition truthy (v : value) : bool :=
  match v with
  | VUndefined | VNull => false
  | VBool b => b
  | VNum n => negb (Z.eqb n 0)
  | VStr s => match s with [] => false | _ :: _ => true end
  | VArr _ | VObj _ => true
  end.

(** [a || b]. *)
Definition or (a b : value) : value := if truthy a then a else b.

Fixpoint lookup (key : string) (fields : list (string * value)) : value :=
  match fields with
  | [] => VUndefined
  | (k, v) :: fields' => if String.eqb k key then v else lookup key fields'
  end.

(** [v.key] for the keys the module reads ([role], [content], [text]): an
    own field of an object, [undefined] on any other value that has
    properties, a TypeError on [null] and [undefined]. *)
Definition get (v : value) (key : string) : completion value :=
  match v with
  | VUndefined | VNull => Throw TypeError
  | VObj fields => Normal (lookup key fields)
  | _ => Normal VUndefined
  end.

(** [v?.key]. *)
Definition get_opt (v : value) (key : string) : value :=
  match get v key with
  | Normal x => x
  | Throw _ => VUndefined
  end.

(** An own property named [key]. *)
Definition has_own (key : string) (fields : list (string * value)) : bool :=
  existsb (fun kv => String.eqb (fst kv) key) fields.

(** [String(v)], the conversion that template literals and [join] apply
    too.  An array prints its elements joined by commas, [null] and
    [undefined] elements as nothing, and fails where an element fails.  A
    plain object prints through [Object.prototype.toString], unless it has
    an own property [toString]: that property is not callable, [valueOf]
    gives back the object or is not callable either, and the conversion
    throws a TypeError. *)
Fixpoint toString (v : value) : completion jsstring :=
  match v with
  | VUndefined => Normal (str "undefined")
  | VNull => Normal (str "null")
  | VBool true => Normal (str "true")
  | VBool false => Normal (str "false")
  | VNum n => Normal (Str.ofNumber n)
  | VStr s => Normal s
  | VArr items =>
      match
        (fix each (items : list value) : completion (list jsstring) :=
           match items with
           | [] => Normal []
           | x :: items' =>
               match
                 match x with
                 | VUndefined | VNull => Normal []
                 | _ => toString x
                 end
               with
               | Throw e => Throw e
               | Normal piece =>
                   match each items' with
                   | Throw e => Throw e
                   | Normal pieces => Normal (piece :: pieces)
                   end
               end
           end) items
      with
      | Throw e => Throw e
      | Normal pieces => Normal (Str.join (str ",") pieces)
      end
  | VObj fields =>
      if has_own "toString" fields then Throw TypeError
      else Normal (str "[object Object]")
  end.

(** The strings [join] puts between the separators: an element that is
    [null] or [undefined] gives the empty string, another one its
    [String] form. *)
Fixpoint strings (items : list value) : completion (list jsstring) :=
  match items with
  | [] => Normal []
  | x :: items' =>
      match
        match x with
        | VUndefined | VNull => Normal []
        | _ => toString x
        end
      with
      | Throw e => Throw e
      | Normal piece =>
          match strings items' with
          | Throw e => Throw e
          | Normal pieces => Normal (piece :: pieces)
          end
      end
  end.

(** [arr.join(sep)] on an array of values. *)
Definition join (sep : jsstring) (items : list value) : completion jsstring :=
  match strings items with
  | Throw e => Throw e
  | Normal pieces => Normal (Str.join sep pieces)
  end.

End Value.

(** ** The module's constants *)

Import Regex.

Definition LF : ascii := ascii_of_N 10.

(** The tail [(.{n,}?)(?:\.|$)] shared by the statement patterns. *)
Definition clause (n : nat) : list regex :=
  [Group (lazy_at_least n Dot); Alt (lit ".") Eol].

Definition gi (r : regex) : RegExp := mkRegExp r true true.
Definition i_ (r : regex) : RegExp := mkRegExp r true false.

Definition GAP_PATTERNS : list RegExp :=
  [ (* English patterns *)
    (* /I wonder\s+(.{15,}?)(?:\.|$)/gi *)
    gi (seqs ([lit "I wonder"; plus Space] ++ clause 15));
    (* /I'm curious\s+(?:about\s+)?(.{15,}?)(?:\.|$)/gi *)
    gi (seqs ([lit "I'm curious"; plus Space; Opt (Seq (lit "about") (plus Space))]
              ++ clause 15));
    (* /I don't (?:fully )?understand\s+(.{15,}?)(?:\.|$)/gi *)
    gi (seqs ([lit "I don't "; Opt (lit "fully "); lit "understand"; plus Space]
              ++ clause 15));
    (* /I (?:need|want) to (?:learn|know|explore|understand)\s+(.{15,}?)(?:\.|$)/gi *)
    gi (seqs ([lit "I "; words "need|want"; lit " to ";
               words "learn|know|explore|understand"; plus Space]
              ++ clause 15));
    (* /I'm not sure (?:about |whether |if |how |why )(.{15,}?)(?:\.|$)/gi *)
    gi (seqs ([lit "I'm not sure ";
               words "about |whether |if |how |why "]
              ++ clause 15));
    (* /(?:how|why|what|when|where)
        (?:does|do|did|is|are|was|were|would|could|should|can|might) .{10,}\?/gi *)
    gi (seqs [words "how|why|what|when|where"; lit " ";
              words "does|do|did|is|are|was|were|would|could|should|can|might";
              lit " "; at_least 10 Dot; lit "?"]);
    (* German patterns *)
    (* /ich frage mich\s+(.{15,}?)(?:\.|$)/gi *)
    gi (seqs ([lit "ich frage mich"; plus Space] ++ clause 15));
    (* /ich (?:muss|will) (?:lernen|wissen|verstehen|erfahren)\s+(.{15,}?)(?:\.|$)/gi *)
    gi (seqs ([lit "ich "; words "muss|will"; lit " ";
               words "lernen|wissen|verstehen|erfahren"; plus Space]
              ++ clause 15));
    (* /ich bin mir (?:nicht )?(?:sicher|klar|bewusst)
        (?:,? ob | wie | warum | was )(.{10,}?)(?:\.|$)/gi *)
    gi (seqs ([lit "ich bin mir "; Opt (lit "nicht ");
               words "sicher|klar|bewusst";
               alts [Seq (Opt (lit ",")) (lit " ob "); lit " wie ";
                     lit " warum "; lit " was "]]
              ++ clause 10));
    (* /ich verstehe (?:nicht |kaum )?(.{15,}?)(?:\.|$)/gi *)
    gi (seqs ([lit "ich verstehe "; Opt (words "nicht |kaum ")] ++ clause 15));
    (* /wie (?:funktioniert|geht|kann|soll|musst) .{10,}\?/gi *)
    gi (seqs [lit "wie ";
              words "funktioniert|geht|kann|soll|musst";
              lit " "; at_least 10 Dot; lit "?"]);
    (* /warum .{10,}\?/gi *)
    gi (seqs [lit "warum "; at_least 10 Dot; lit "?"]);
    (* /was (?:bedeutet|ist|heisst|macht) .{10,}\?/gi, with the sharp s
       (code unit 223) where this comment writes ss *)
    gi (seqs [lit "was ";
              alts [lit "bedeutet"; lit "ist";
                    seqs [lit "hei"; Lit (ascii_of_N 223); lit "t"];
                    lit "macht"];
              lit " "; at_least 10 Dot; lit "?"]);
    (* /keine ahnung (?:wie|warum|was|wo|wann) .{10,}/gi *)
    gi (seqs [lit "keine ahnung "; words "wie|warum|was|wo|wann";
              lit " "; at_least 10 Dot]) ].

(** Each is [/^(?:a|b|...)/i]. *)
Definition FILTER_PATTERNS : list RegExp :=
  [ i_ (Seq Bol (words "would you|do you|can you|should I|shall I|could I|want me to|let me"));
    i_ (Seq Bol (words "is that|does that|are you|how about|what if I"));
    i_ (Seq Bol (words "ready|okay|alright|sure|got it|understood"));
    (* Rhetorical / marketing / document noise *)
    i_ (Seq Bol (words "those|these|that|what about those|ever notice|imagine|picture this"));
    i_ (Seq Bol (words "isn't it|aren't they|doesn't it|don't they|wouldn't it|won't they"));
    i_ (Seq Bol (words "who doesn't|who wouldn't|who hasn't"));
    i_ (Seq Bol (words "sound familiar|ring a bell|know the feeling")) ].

Definition DOCUMENT_NOISE_PATTERNS : list RegExp :=
  [ (* /(?:chapter|section|page|figure|table)\s+\d/i *)
    i_ (seqs [words "chapter|section|page|figure|table";
              plus Space; Class Digit]);
    (* /(?:(c)|copyright|all rights reserved|terms of service|privacy policy)/i,
       with the copyright sign (code unit 169) where this comment writes (c) *)
    i_ (alts [Lit (ascii_of_N 169); lit "copyright"; lit "all rights reserved";
              lit "terms of service"; lit "privacy policy"]);
    (* /(?:click here|learn more|sign up|subscribe|download now|get started)/i *)
    i_ (words "click here|learn more|sign up|subscribe|download now|get started");
    (* /(?:www\.|https?:\/\/)/i *)
    i_ (alts [lit "www."; seqs [lit "http"; Opt (lit "s"); lit "://"]]) ].

(** [/\[(?:CONTINUITY CONTEXT|STABILITY CONTEXT|GROWTH VECTORS|MEMORY INTEGRATION)\]
     [\s\S]*?(?=\[(?:CONTINUITY|STABILITY|GROWTH|MEMORY)|$)/gi] *)
Definition CONTEXT_BLOCK_PATTERN : RegExp :=
  gi (seqs [lit "[";
            words "CONTINUITY CONTEXT|STABILITY CONTEXT|GROWTH VECTORS|MEMORY INTEGRATION";
            lit "]";
            lazy_star AnyChar;
            Ahead (Alt (Seq (lit "[")
                            (words "CONTINUITY|STABILITY|GROWTH|MEMORY"))
                       Eol)]).

(** [/^\[(?:Mon|Tue|Wed|Thu|Fri|Sat|Sun) \d{4}-\d{2}-\d{2} \d{2}:\d{2} [A-Z]+\]\s*/] *)
Definition TIMESTAMP_PREFIX : RegExp :=
  mkRegExp
    (seqs [Bol; lit "[";
           words "Mon|Tue|Wed|Thu|Fri|Sat|Sun"; lit " ";
           exactly 4 Digit; lit "-"; exactly 2 Digit; lit "-"; exactly 2 Digit;
           lit " "; exactly 2 Digit; lit ":"; exactly 2 Digit; lit " ";
           plus (Range "A" "Z"); lit "]"; star Space])
    false false.

(** The RegExp literals written inline in the functions. *)
Definition CODE_FENCE : RegExp :=                      (* /```[\s\S]*?```/g *)
  mkRegExp (seqs [lit "```"; lazy_star AnyChar; lit "```"]) false true.

Definition TABLE_ROW : RegExp :=                       (* /\|[^\n]+\|/g *)
  mkRegExp (seqs [lit "|"; plus (NoneOf [LF]); lit "|"]) false true.

Definition SPACES : RegExp :=                          (* /\s+/g *)
  mkRegExp (plus Space) false true.

Definition SENTENCE_BREAK : RegExp :=                  (* /(?<=[.!?])\s+/ *)
  mkRegExp (Seq (Behind (OneOf (str ".!?"))) (plus Space)) false false.

(** [/(?:how|why|what|where|when|who|which)\s+(?:does|do|did|is|are|was|were|
      would|could|should|can|might|will|has|have|had)/i] *)
Definition WH_VERB : RegExp :=
  i_ (seqs [words "how|why|what|where|when|who|which";
            plus Space;
            words "does|do|did|is|are|was|were|would|could|should|can|might|will|has|have|had"]).

(** [/(?:I|we|you)\s+(?:wonder|don't|need|want|should|could)/i] *)
Definition PRONOUN_VERB : RegExp :=
  i_ (seqs [words "I|we|you"; plus Space;
            words "wonder|don't|need|want|should|could"]).

(** ** normalizeText *)

(** [msg] is truthy where [msg.content] is read, so the read cannot throw
    and [Value.get_opt] stands for it.  The conversions of [join] and
    [String] can throw. *)
Definition normalizeText (msg : value) : completion jsstring :=
  if negb (Value.truthy msg) then Normal []
  else
    match Value.get_opt msg "content" with
    | VStr s => Normal s
    | VArr parts =>
        Value.join (str " ")
          (map (fun part =>
                  Value.or (Value.get_opt part "text")
                    (Value.or (Value.get_opt part "content") (VStr [])))
               parts)
    | content => Value.toString (Value.or content (VStr []))
    end.

(** ** stripContextBlocks *)

Definition injection_markers : list jsstring :=
  map str ["Entropy:"; "Principles:"; "Session:"; "Topics:";
           "Speak from this memory"; "- They told you:"; "  You said:";
           "You remember these earlier"]%string.

Definition stripContextBlocks (text : jsstring) : jsstring :=
  let cleaned := replace CONTEXT_BLOCK_PATTERN [] text in
  let cleaned := replace TIMESTAMP_PREFIX [] cleaned in
  Str.trim
    (Str.join [LF]
       (filter (fun line =>
                  let trimmed := Str.trim line in
                  forallb (fun marker => negb (Str.startsWith trimmed marker))
                    injection_markers)
          (Str.splitOn LF cleaned))).

(** ** extractGapsFromText *)

(** [gap.toLowerCase().replace(/\s+/g, ' ')], the key of the [seen] set. *)
Definition normalize (gap : jsstring) : jsstring :=
  replace SPACES (str " ") (Str.toLowerCase gap).

(** The [seen] set holds strings; [has] compares them code unit by code unit. *)
Fixpoint jsstring_eqb (a b : jsstring) : bool :=
  match a, b with
  | [], [] => true
  | x :: a', y :: b' => (Ascii.eqb x y && jsstring_eqb a' b')%bool
  | _, _ => false
  end.

Definition has (seen : list jsstring) (key : jsstring) : bool :=
  existsb (jsstring_eqb key) seen.

(** Where a loop body leaves the function: [return gaps], or on to the next
    iteration with the arrays as they are now. *)
Inductive flow : Type :=
| Return (gaps : list jsstring)
| Continue (gaps seen : list jsstring).

(** The last five statements of both loop bodies: normalise, skip what was
    seen, remember, push, and return once the cap is reached. *)
Definition record (maxCount : Z) (gap : jsstring) (gaps seen : list jsstring)
    : flow :=
  let normalized := normalize gap in
  if has seen normalized then Continue gaps seen
  else
    let seen := normalized :: seen in
    let gaps := gaps ++ [gap] in
    if (Z.of_nat (length gaps) >=? maxCount)%Z then Return gaps
    else Continue gaps seen.

(** [while ((match = pattern.exec(text)) !== null) { ... }].  The loop is
    run for at most [fuel] calls of [exec]; [None] when that is not enough.
    The second component is [pattern.lastIndex] on the way out. *)
Fixpoint while_exec (fuel : nat) (pattern : RegExp) (text : jsstring)
    (maxCount : Z) (lastIndex : nat) (gaps seen : list jsstring)
    : option (flow * nat) :=
  match fuel with
  | O => None
  | S fuel' =>
      match exec pattern text lastIndex with
      | None => Some (Continue gaps seen, 0)
      | Some (match0, lastIndex') =>
          let gap := Str.trim match0 in
          if length gap <? 15 then
            while_exec fuel' pattern text maxCount lastIndex' gaps seen
          else if existsb (fun f => test f gap) FILTER_PATTERNS then
            while_exec fuel' pattern text maxCount lastIndex' gaps seen
          else
            match record maxCount gap gaps seen with
            | Return gaps' => Some (Return gaps', lastIndex')
            | Continue gaps' seen' =>
                while_exec fuel' pattern text maxCount lastIndex' gaps' seen'
            end
      end
  end.

(** The [lastIndex] of each RegExp object of [GAP_PATTERNS], by its place in
    the array: the state the objects keep between calls. *)
Definition lastIndexes : Type := nat -> nat.

Definition set_lastIndex (s : lastIndexes) (i v : nat) : lastIndexes :=
  fun j => if j =? i then v else s j.

(** Pass 1: [for (const pattern of GAP_PATTERNS)], from the pattern number
    [i] on. *)
Fixpoint pass1 (patterns : list RegExp) (i : nat) (text : jsstring)
    (maxCount : Z) (s : lastIndexes) (gaps seen : list jsstring)
    : option (flow * lastIndexes) :=
  match patterns with
  | [] => Some (Continue gaps seen, s)
  | pattern :: patterns' =>
      (* Reset regex state *)
      let s := set_lastIndex s i 0 in
      match while_exec (S (length text)) pattern text maxCount (s i) gaps seen with
      | None => None
      | Some (Return gaps', lastIndex) =>
          Some (Return gaps', set_lastIndex s i lastIndex)
      | Some (Continue gaps' seen', lastIndex) =>
          pass1 patterns' (S i) text maxCount (set_lastIndex s i lastIndex)
            gaps' seen'
      end
  end.

(** Pass 2: [for (const sentence of sentences)]; the result is the array
    the function returns. *)
Fixpoint pass2 (sentences : list jsstring) (maxCount : Z)
    (gaps seen : list jsstring) : list jsstring :=
  match sentences with
  | [] => gaps
  | sentence :: sentences' =>
      let trimmed := Str.trim sentence in
      if negb (Str.endsWith trimmed (str "?")) then
        pass2 sentences' maxCount gaps seen
      else if length trimmed <? 30 then
        pass2 sentences' maxCount gaps seen
      else if existsb (fun f => test f trimmed) FILTER_PATTERNS then
        pass2 sentences' maxCount gaps seen
      else if existsb (fun f => test f trimmed) DOCUMENT_NOISE_PATTERNS then
        pass2 sentences' maxCount gaps seen
      else if (negb (test WH_VERB trimmed) && negb (test PRONOUN_VERB trimmed))%bool then
        pass2 sentences' maxCount gaps seen
      else
        match record maxCount trimmed gaps seen with
        | Return gaps' => gaps'
        | Continue gaps' seen' => pass2 sentences' maxCount gaps' seen'
        end
  end.

(** [extractGapsFromText(text, maxCount)], started with the RegExp objects
    in state [s]: the array returned and the state left behind, or [None]
    when a [while] loop of pass 1 does not finish. *)
Definition extractGapsFromText (text : jsstring) (maxCount : Z)
    (s : lastIndexes) : option (list jsstring * lastIndexes) :=
  match pass1 GAP_PATTERNS 0 text maxCount s [] [] with
  | None => None
  | Some (Return gaps, s') => Some (gaps, s')
  | Some (Continue gaps seen, s') =>
      Some (pass2 (split SENTENCE_BREAK text) maxCount gaps seen, s')
  end.

(** ** identifyGaps *)

(** The three properties of [extractionConfig] the function reads; [None]
    is an absent property.  The threshold and the cap are numbers, the
    keywords an array of strings. *)
Record ExtractionConfig : Type := mkConfig {
  entropyThreshold : option Q;
  keywords : option (list jsstring);
  maxGapsPerExchange : option Z
}.

(** The argument object; [None] is an absent ([undefined]) property.
    [extractionConfig] is an object or absent.  The value [null] is not
    among them: the parameter default [= {}] does not stand in for it, and
    the first line of identifyGaps throws on it. *)
Record Params : Type := mkParams {
  messages : option (list value);
  entropy : option Q;
  extractionConfig : option ExtractionConfig;
  source : option jsstring
}.

Module Gap.
Record t : Type := mk {
  id : jsstring;
  question : jsstring;
  source : jsstring;
  context : jsstring;
  entropy : Q
}.
End Gap.

(** The wall clock as the call reads it: [Date_now idx] is what [Date.now()]
    gives while the record number [idx] is built, [toISOString idx] what
    [new Date().toISOString()] gives there. *)
Record Clock : Type := mkClock {
  Date_now : nat -> Z;
  toISOString : nat -> jsstring
}.

(** How a call of identifyGaps ends: it returns an array and leaves the
    RegExp objects in state [s], it throws, or a [while] loop of pass 1 does
    not finish. *)
Inductive outcome : Type :=
| Returns (gaps : list Gap.t) (s : lastIndexes)
| Throws (e : error)
| Diverges.

(** [a < b] on numbers. *)
Definition Qltb (a b : Q) : bool := negb (Qle_bool b a).

(** [a || b] on an optional string: the empty string is falsy too. *)
Definition or_string (a : option jsstring) (b : jsstring) : jsstring :=
  match a with
  | Some (c :: s) => c :: s
  | _ => b
  end.

(** [a || b] on an optional integer: 0 is falsy too. *)
Definition or_int (a : option Z) (b : Z) : Z :=
  match a with
  | Some n => if Z.eqb n 0 then b else n
  | None => b
  end.

(** [role === 'user']. *)
Definition is_user (role : value) : bool :=
  match role with
  | VStr s => jsstring_eqb s (str "user")
  | _ => false
  end.

(** The loop that fills [conversationParts] from [recentMessages]. *)
Fixpoint conversationParts (recentMessages : list value)
    : completion (list jsstring) :=
  match recentMessages with
  | [] => Normal []
  | msg :: rest =>
      match Value.get msg "role" with
      | Throw e => Throw e
      | Normal role =>
          if negb (is_user role) then conversationParts rest
          else
            match normalizeText msg with
            | Throw e => Throw e
            | Normal text =>
                match text with
                | [] => conversationParts rest
                | _ :: _ =>
                    let cleaned := stripContextBlocks text in
                    let cleaned := replace CODE_FENCE [] cleaned in
                    let cleaned := replace TABLE_ROW [] cleaned in
                    if 10 <? length cleaned then
                      match conversationParts rest with
                      | Normal parts => Normal (cleaned :: parts)
                      | Throw e => Throw e
                      end
                    else conversationParts rest
                end
            end
      end
  end.

(** [conversationText]: the parts of the last six messages joined by a
    blank line. *)
Definition conversationText (messages : option (list value))
    : completion jsstring :=
  let recentMessages :=
    sliceLast 6 (match messages with Some ms => ms | None => [] end) in
  match conversationParts recentMessages with
  | Normal parts => Normal (Str.join [LF; LF] parts)
  | Throw e => Throw e
  end.

(** [keywords.some(k => lowered.includes(String(k).toLowerCase()))]. *)
Definition keywordHit (keywords : list jsstring) (conversationText : jsstring)
    : bool :=
  let lowered := Str.toLowerCase conversationText in
  existsb (fun k => Str.includes lowered (Str.toLowerCase k)) keywords.

(** The record built around the question number [idx]. *)
Definition wrap (clock : Clock) (source : option jsstring)
    (conversationText : jsstring) (entropy : Q) (idx : nat)
    (question : jsstring) : Gap.t :=
  Gap.mk
    (str "gap_" ++ Str.ofZ (Date_now clock idx) ++ str "_"
       ++ Str.ofZ (Z.of_nat idx))
    question
    (or_string source (str "exchange_" ++ toISOString clock idx))
    (Str.slice0 1200 conversationText)
    entropy.

(** [arr.map((x, idx) => f idx x)]. *)
Fixpoint mapi {A B} (f : nat -> A -> B) (idx : nat) (l : list A) : list B :=
  match l with
  | [] => []
  | x :: l' => f idx x :: mapi f (S idx) l'
  end.

Definition default_config : ExtractionConfig := mkConfig None None None.

(** [extractionConfig = {}] in the parameter list. *)
Definition configOf (p : Params) : ExtractionConfig :=
  match extractionConfig p with Some c => c | None => default_config end.

(** [entropy = 0] in the parameter list. *)
Definition entropyOf (p : Params) : Q :=
  match entropy p with Some e => e | None => 0%Q end.

(** [extractionConfig.entropyThreshold ?? 0.5]. *)
Definition thresholdOf (p : Params) : Q :=
  match entropyThreshold (configOf p) with Some t => t | None => (1 # 2)%Q end.

(** [extractionConfig.keywords || []]. *)
Definition keywordsOf (p : Params) : list jsstring :=
  match keywords (configOf p) with Some ks => ks | None => [] end.

(** [extractionConfig.maxGapsPerExchange || 2]. *)
Definition maxGapsOf (p : Params) : Z :=
  or_int (maxGapsPerExchange (configOf p)) 2.

(** [identifyGaps({ messages, entropy = 0, extractionConfig = {}, source })]
    called when the clock reads [clock] and the RegExp objects are in state
    [s]. *)
Definition identifyGaps (clock : Clock) (s : lastIndexes) (p : Params)
    : outcome :=
  let entropy := entropyOf p in
  let entropyThreshold := thresholdOf p in
  let keywords := keywordsOf p in
  let maxGaps := maxGapsOf p in
  match conversationText (messages p) with
  | Throw e => Throws e
  | Normal conversationText =>
      match conversationText with
      | [] => Returns [] s
      | _ :: _ =>
          if (Qltb entropy entropyThreshold
              && negb (keywordHit keywords conversationText))%bool
          then Returns [] s
          else
            match extractGapsFromText conversationText maxGaps s with
            | None => Diverges
            | Some (questions, s') =>
                Returns
                  (mapi (wrap clock (source p) conversationText entropy)
                     0 questions)
                  s'
            end
      end
  end.

(** The gap strings of an outcome. *)
Definition questions (o : outcome) : option (list jsstring) :=
  match o with
  | Returns gaps _ => Some (map Gap.question gaps)
  | _ => None
  end.

(** ** Vocabulary of the properties *)

(** *** Matches *)

(** A lower bound on the length of every match of a pattern. *)
Fixpoint minlen (r : regex) : nat :=
  match r with
  | Empty => 0
  | Lit _ | Class _ => 1
  | Seq r1 r2 => minlen r1 + minlen r2
  | Alt r1 r2 => Nat.min (minlen r1) (minlen r2)
  | Opt _ => 0
  | Rep _ min _ _ => min
  | Group r1 => minlen r1
  | Bol | Eol | Ahead _ | Behind _ => 0
  end.

(** [q] is [p] moved forward over at least [n] characters of the subject. *)
Definition advances (n : nat) (p q : pos) : Prop :=
  exists m, snd p = m ++ snd q /\ fst q = rev m ++ fst p /\ n <= length m.

(** [w] is a prefix of [t], compared as the flags say. *)
Fixpoint ci_prefix (ic : bool) (w t : jsstring) : bool :=
  match w, t with
  | [], _ => true
  | c :: w', x :: t' => (Char.eqb_ci ic c x && ci_prefix ic w' t')%bool
  | _ :: _, [] => false
  end.

(** The canonical (case-folded) form of a string, as the [i] flag compares. *)
Definition canonical (s : jsstring) : jsstring := map Char.canonicalize s.

(** *** Substrings *)

(** [needle] occurs in [s] as a substring. *)
Definition occurs (needle s : jsstring) : Prop :=
  exists pre post, s = pre ++ needle ++ post.

(** *** Context blocks *)

(** The look-ahead of [CONTEXT_BLOCK_PATTERN] and its first alternative. *)
Definition OPENER : regex :=
  Seq (lit "[") (words "CONTINUITY|STABILITY|GROWTH|MEMORY").

Definition BLOCK_END : regex := Ahead (Alt OPENER Eol).

(** The four headers, in their canonical (upper-case) form. *)
Definition HEADERS : list jsstring :=
  [str "[CONTINUITY CONTEXT]"; str "[STABILITY CONTEXT]";
   str "[GROWTH VECTORS]"; str "[MEMORY INTEGRATION]"].

Definition OPENERS : list jsstring :=
  [str "[CONTINUITY"; str "[STABILITY"; str "[GROWTH"; str "[MEMORY"].

(** No header opener, in any letter case, occurs in [text]. *)
Definition no_opener (text : jsstring) : Prop :=
  forall w, In w OPENERS -> ~ occurs w (canonical text).

Definition no_opener_b (text : jsstring) : bool :=
  forallb (fun w => negb (Str.includes (canonical text) w)) OPENERS.

(** *** Runs of the extraction *)

(** What a loop invariant [Inv] and a property [Post] of the returned array
    ask of the way a loop body ends. *)
Definition flow_ok (Inv : list jsstring -> list jsstring -> Prop)
    (Post : list jsstring -> Prop) (f : flow) : Prop :=
  match f with
  | Return gaps => Post gaps
  | Continue gaps seen => Inv gaps seen
  end.

(** The arrays of a run: the normalized forms of [gaps] are pairwise
    different and all in [seen]. *)
Definition distinct (gaps seen : list jsstring) : Prop :=
  NoDup (map normalize gaps) /\ forall g, In g gaps -> In (normalize g) seen.

(** ** Scenarios *)

Definition user (text : jsstring) : value :=
  VObj [("role"%string, VStr (str "user")); ("content"%string, VStr text)].

(** A message of the user with any content. *)
Definition user_content (content : value) : value :=
  VObj [("role"%string, VStr (str "user")); ("content"%string, content)].

Definition tidal : jsstring :=
  str "I wonder how the tidal patterns actually affect migration timing for arctic terns.".

Definition cascades_here : jsstring :=
  str "I don't fully understand how the error handling cascades here.".

Definition cascades : jsstring :=
  str "I don't fully understand how the error handling cascades.".


(** A clock that stands still at [t] milliseconds. *)
Definition clock_at (t : Z) (iso : string) : Clock :=
  mkClock (fun _ => t) (fun _ => str iso).

Definition clock1 : Clock := clock_at 1000 "1970-01-01T00:00:01.000Z".
Definition clock2 : Clock := clock_at 2000 "1970-01-01T00:00:02.000Z".

(** RegExp objects that have not been used yet. *)
Definition fresh : lastIndexes := fun _ => 0.

(** A call with entropy [e], threshold 0.5, no keywords and the cap [cap]. *)
Definition exchange (msgs : list value) (e : Q) (cap : option Z) : Params :=
  mkParams (Some msgs) (Some e) (Some (mkConfig (Some (1 # 2)%Q) None cap)) None.

(** What a returned outcome holds, the state of the RegExp objects apart. *)
Definition returned (o : outcome) : option (list Gap.t) :=
  match o with
  | Returns gaps _ => Some gaps
  | _ => None
  end.

(** An outcome without what it takes from the clock and the caller's tag:
    per gap the question, the context and the entropy. *)
Definition timeless (o : outcome)
    : option (completion (list (jsstring * jsstring * Q))) :=
  match o with
  | Returns gaps _ =>
      Some (Normal (map (fun g => (Gap.question g, Gap.context g, Gap.entropy g))
                      gaps))
  | Throws e => Some (Throw e)
  | Diverges => None
  end.

(** The text of the two near-duplicate messages, as identifyGaps joins them. *)
Definition cascades_text : jsstring :=
  Str.join [LF; LF] [cascades_here; cascades].

(** Six filler messages of the assistant, and a window that ends with the
    tidal question. *)
Definition assistant (text : jsstring) : value :=
  VObj [("role"%string, VStr (str "assistant")); ("content"%string, VStr text)].

Definition window : list value :=
  [assistant (str "Hello."); user (str "Hi."); assistant (str "Yes?");
   user (str "One moment."); assistant (str "Sure."); user tidal].

(** ** More vocabulary *)

(** *** Gaps of a run *)

(** Every gap a loop body ends with has the property [P]. *)
Definition flow_all (P : list ascii -> Prop) (f : flow) : Prop :=
  match f with
  | Return gaps => Forall P gaps
  | Continue gaps _ => Forall P gaps
  end.

(** The openers of [FILTER_PATTERNS], as the seven patterns list them. *)
Definition CONVERSATIONAL_OPENERS : list jsstring :=
  map str
    ["would you"; "do you"; "can you"; "should I"; "shall I"; "could I";
     "want me to"; "let me";
     "is that"; "does that"; "are you"; "how about"; "what if I";
     "ready"; "okay"; "alright"; "sure"; "got it"; "understood";
     "those"; "these"; "that"; "what about those"; "ever notice"; "imagine";
     "picture this";
     "isn't it"; "aren't they"; "doesn't it"; "don't they"; "wouldn't it";
     "won't they";
     "who doesn't"; "who wouldn't"; "who hasn't";
     "sound familiar"; "ring a bell"; "know the feeling"]%string.

(** [g2] is [g1] with more gaps pushed. *)
Definition grows (g1 g2 : list jsstring) : Prop := exists more, g2 = g1 ++ more.

(** The array a loop body ends with. *)
Definition gaps_of (f : flow) : list jsstring :=
  match f with
  | Return gaps => gaps
  | Continue gaps _ => gaps
  end.

(** How a run under the cap [c1] and a run under a larger cap compare: in
    step while the smaller cap is not reached, and then the second run only
    pushes more. *)
Definition in_step (c1 : Z) (f1 f2 : flow) : Prop :=
  match f1 with
  | Continue gaps seen => f2 = Continue gaps seen
  | Return gaps => Z.of_nat (length gaps) = c1 /\ grows gaps (gaps_of f2)
  end.

(** *** Messages *)

(** A message the loop of identifyGaps passes over: it has a [role], and
    the role is not ['user']. *)
Definition non_user (m : value) : Prop :=
  exists role, Value.get m "role" = Normal role /\ is_user role = false.

(** Two messages that are the same, or both passed over. *)
Definition same_for_extraction (a b : value) : Prop :=
  a = b \/ (non_user a /\ non_user b).

(** [null] and [undefined]: the values without properties. *)
Definition nullish (m : value) : Prop := m = VNull \/ m = VUndefined.

(** A message of the user whose content does not convert to a string. *)
Definition unreadable (m : value) : Prop :=
  exists role,
    Value.get m "role" = Normal role /\ is_user role = true
    /\ normalizeText m = Throw TypeError.

(** [recentMessages] of a call. *)
Definition recentMessages (p : Params) : list value :=
  sliceLast 6 (match messages p with Some ms => ms | None => [] end).

(** A part of a multi-part message content: [{ type: 'text', text }], or a
    hole ([null]) where [o] is [None]. *)
Definition text_part (o : option jsstring) : value :=
  match o with
  | Some s => VObj [("type"%string, VStr (str "text")); ("text"%string, VStr s)]
  | None => VNull
  end.

Definition text_of (o : option jsstring) : jsstring :=
  match o with Some s => s | None => [] end.

(** *** Where a gap comes from *)

(** A match of one of the [GAP_PATTERNS], trimmed. *)
Definition from_pass1 (text gap : jsstring) : Prop :=
  exists pattern lastIndex match0 lastIndex',
    In pattern GAP_PATTERNS
    /\ exec pattern text lastIndex = Some (match0, lastIndex')
    /\ gap = Str.trim match0.

(** A sentence of the text, trimmed, that pass 2 lets through. *)
Definition from_pass2 (text gap : jsstring) : Prop :=
  exists sentence,
    In sentence (split SENTENCE_BREAK text)
    /\ gap = Str.trim sentence
    /\ Str.endsWith gap (str "?") = true
    /\ 30 <= length gap
    /\ existsb (fun f => test f gap) DOCUMENT_NOISE_PATTERNS = false
    /\ (test WH_VERB gap || test PRONOUN_VERB gap)%bool = true.

(** * index.js: deepMerge *)

Module Index.

(** An array index as a property key. *)
Definition index_key (i : nat) : string :=
  NilZero.string_of_uint (Nat.to_uint i).

Fixpoint indexed {A} (f : A -> value) (i : nat) (l : list A)
    : list (string * value) :=
  match l with
  | [] => []
  | x :: l' => (index_key i, f x) :: indexed f (S i) l'
  end.

(** The own enumerable properties of a value, as [{ ...v }] copies them and
    [Object.keys(v)] lists them: the fields of an object, the elements of an
    array and the code units of a string under their indices, nothing for
    the other values. *)
Definition ownEntries (v : value) : list (string * value) :=
  match v with
  | VObj fields => fields
  | VArr items => indexed (fun x => x) 0 items
  | VStr s => indexed (fun c => VStr [c]) 0 s
  | _ => []
  end.

(** [result[key] = v] on the fields of a plain object, for a key other than
    [__proto__]: the field is overwritten in place, or added at the end. *)
Fixpoint put (key : string) (v : value) (result : list (string * value))
    : list (string * value) :=
  match result with
  | [] => [(key, v)]
  | (k, x) :: result' =>
      if String.eqb k key then (k, v) :: result'
      else (k, x) :: put key v result'
  end.

(** [deepMerge(target, source)].  [result[key] || {}] reads an own field
    with [Value.lookup]: a name inherited from [Object.prototype] is a
    function there, whose spread is empty as that of [{}] is.  The key
    [__proto__] is outside the model (see [plain]).  The fields are listed
    in the order of insertion; JavaScript lists integer-like keys first,
    which no property below depends on. *)
Fixpoint deepMerge (target source : value) {struct source} : value :=
  VObj
    match source with
    | VObj fields =>
        (fix each (entries result : list (string * value)) {struct entries} :=
           match entries with
           | [] => result
           | (key, next) :: entries' =>
               each entries'
                 (put key
                    match next with
                    | VObj _ =>
                        deepMerge
                          (Value.or (Value.lookup key result) (VObj [])) next
                    | _ => next
                    end
                    result)
           end) fields (ownEntries target)
    | VArr items =>
        (fix each (i : nat) (items : list value)
             (result : list (string * value)) {struct items} :=
           match items with
           | [] => result
           | next :: items' =>
               each (S i) items'
                 (put (index_key i)
                    match next with
                    | VObj _ =>
                        deepMerge
                          (Value.or (Value.lookup (index_key i) result) (VObj []))
                          next
                    | _ => next
                    end
                    result)
           end) 0 items (ownEntries target)
    | VStr s =>
        fold_left (fun result kv => put (fst kv) (snd kv) result)
          (indexed (fun c => VStr [c]) 0 s) (ownEntries target)
    | _ => ownEntries target
    end.

(** One turn of the loop of deepMerge, and the loop over the entries of
    an object. *)
Definition assign (key : string) (next : value)
    (result : list (string * value)) : list (string * value) :=
  put key
    match next with
    | VObj _ => deepMerge (Value.or (Value.lookup key result) (VObj [])) next
    | _ => next
    end
    result.

Fixpoint assign_all (entries result : list (string * value))
    : list (string * value) :=
  match entries with
  | [] => result
  | (key, next) :: entries' => assign_all entries' (assign key next result)
  end.

(** The objects the model of deepMerge speaks for: at every level the keys
    are distinct, as the keys of an object are, and none is [__proto__]
    (assigning to it sets the prototype instead of a field). *)
Fixpoint distinct_keys (keys : list string) : bool :=
  match keys with
  | [] => true
  | k :: keys' => (negb (existsb (String.eqb k) keys') && distinct_keys keys')%bool
  end.

Fixpoint plain (v : value) : bool :=
  match v with
  | VObj fields =>
      (distinct_keys (map fst fields)
       && negb (existsb (String.eqb "__proto__") (map fst fields))
       && (fix all (entries : list (string * value)) : bool :=
             match entries with
             | [] => true
             | (_, x) :: entries' => (plain x && all entries')%bool
             end) fields)%bool
  | _ => true
  end.

End Index.

(** * lib/reflect.js: buildPrompt *)

Module Reflect.

(** A pass of an inquiry: its number, and the [completed] and [output]
    fields, which the code only tests for truthiness and prints. *)
Record Pass : Type := mkPass {
  number : Z;
  completed : value;
  output : value
}.

Record Inquiry : Type := mkInquiry {
  passes : option (list Pass);
  question : jsstring;
  source : jsstring;
  context : option jsstring
}.

(** [ps.map(p => `Pass ${p.number} output:\n${p.output}`)]: the template
    converts the output with [String], which can throw. *)
Fixpoint prior_lines (ps : list Pass) : completion (list jsstring) :=
  match ps with
  | [] => Normal []
  | p :: ps' =>
      match Value.toString (output p) with
      | Throw e => Throw e
      | Normal printed =>
          match prior_lines ps' with
          | Throw e => Throw e
          | Normal lines =>
              Normal ((str "Pass " ++ Str.ofNumber (number p) ++ str " output:"
                       ++ [LF] ++ printed) :: lines)
          end
      end
  end.

(** [buildPrompt({ inquiry, passNumber, passPrompt })]. *)
Definition buildPrompt (inquiry : Inquiry) (passNumber : Z)
    (passPrompt : jsstring) : completion jsstring :=
  match
    prior_lines
      (filter (fun p => (Z.ltb (number p) passNumber
                         && Value.truthy (completed p)
                         && Value.truthy (output p))%bool)
         (match passes inquiry with Some ps => ps | None => [] end))
  with
  | Throw e => Throw e
  | Normal lines =>
      let prior := Str.join [LF; LF] lines in
      Normal
        (Str.join [LF; LF]
           [str "You are running a contemplative pass over a single inquiry.";
            str "Pass: " ++ Str.ofNumber passNumber;
            str "Instruction: " ++ passPrompt;
            str "Inquiry: " ++ question inquiry;
            str "Source: " ++ source inquiry;
            str "Context:" ++ [LF] ++ or_string (context inquiry) (str "(none)");
            match prior with
            | _ :: _ => str "Prior passes:" ++ [LF] ++ prior
            | [] => str "Prior passes: (none)"
            end;
            str "Return concise but specific reflection text only."])
  end.

(** The passes a prompt for pass [passNumber] quotes. *)
Definition quoted (passNumber : Z) (inquiry : Inquiry) : list Pass :=
  filter (fun p => (Z.ltb (number p) passNumber
                    && Value.truthy (completed p)
                    && Value.truthy (output p))%bool)
    (match passes inquiry with Some ps => ps | None => [] end).

(** The same inquiry with other passes. *)
Definition with_passes (inquiry : Inquiry) (ps : option (list Pass)) : Inquiry :=
  mkInquiry ps (question inquiry) (source inquiry) (context inquiry).

End Reflect.

(** * Properties *)

(** ** Matches move forward *)

Module RegexFacts.
Import Regex.

Lemma advances_refl p : advances 0 p p.
Proof. exists []. simpl. auto. Qed.

Lemma advances_weaken n n' p q : n' <= n -> advances n p q -> advances n' p q.
Proof. intros Hle (m & H1 & H2 & H3). exists m. repeat split; auto; lia. Qed.

Lemma advances_trans n1 n2 p x q :
  advances n1 p x -> advances n2 x q -> advances (n1 + n2) p q.
Proof.
  intros (m1 & A1 & A2 & A3) (m2 & B1 & B2 & B3).
  exists (m1 ++ m2). repeat split.
  - rewrite A1, B1. now rewrite app_assoc.
  - rewrite B2, A2, rev_app_distr. now rewrite app_assoc.
  - rewrite length_app. lia.
Qed.

Lemma advances_step n c before rest q :
  advances n (c :: before, rest) q -> advances (S n) (before, c :: rest) q.
Proof.
  intros (m & H1 & H2 & H3). simpl in *.
  exists (c :: m). simpl. repeat split.
  - now rewrite H1.
  - rewrite H2. now rewrite <- app_assoc.
  - lia.
Qed.

Lemma advances_index n p q : advances n p q -> index p + n <= index q.
Proof.
  intros (m & _ & H2 & H3). unfold index. rewrite H2, length_app, length_rev. lia.
Qed.

Lemma advances_subject n p q :
  advances n p q -> rev (fst q) ++ snd q = rev (fst p) ++ snd p.
Proof.
  intros (m & H1 & H2 & _). rewrite H2, H1, rev_app_distr, rev_involutive.
  now rewrite <- app_assoc.
Qed.

Lemma rep_advances ic greedy k rest :
  forall min max before q,
    In q (rep ic greedy k min max before rest) ->
    advances min (before, rest) q.
Proof.
  induction rest as [|c rest IH]; intros min max before q Hin.
  - simpl in Hin. destruct min; destruct greedy; simpl in Hin;
      try contradiction; destruct Hin as [<-|[]]; apply advances_refl.
  - simpl in Hin.
    assert (Hmore : forall q',
      In q' (if (cls_mem ic k c && room max)%bool
             then rep ic greedy k (pred min) (option_map pred max) (c :: before) rest
             else []) -> advances min (before, c :: rest) q').
    { intros q' Hq'. destruct (cls_mem ic k c && room max)%bool; [|contradiction].
      apply IH in Hq'. apply advances_step in Hq'.
      eapply advances_weaken; [|exact Hq']. lia. }
    assert (Hhere : forall q',
      In q' (match min with O => [(before, c :: rest)] | S _ => [] end) ->
      advances min (before, c :: rest) q').
    { intros q' Hq'. destruct min; [|contradiction].
      destruct Hq' as [<-|[]]. apply advances_refl. }
    destruct greedy; apply in_app_or in Hin; destruct Hin; auto.
Qed.

Lemma rmatch_advances ic r :
  forall p q, In q (rmatch ic r p) -> advances (minlen r) p q.
Proof.
  induction r; intros p q Hin; simpl in Hin |- *.
  - destruct Hin as [<-|[]]. apply advances_refl.
  - destruct p as [b [|x t]]; simpl in Hin; [contradiction|].
    destruct (Char.eqb_ci ic c x); [|contradiction].
    destruct Hin as [<-|[]]. apply advances_step, advances_refl.
  - destruct p as [b [|x t]]; simpl in Hin; [contradiction|].
    destruct (cls_mem ic k x); [|contradiction].
    destruct Hin as [<-|[]]. apply advances_step, advances_refl.
  - apply in_flat_map in Hin. destruct Hin as (x & Hx & Hq).
    eapply advances_trans; eauto.
  - apply in_app_or in Hin. destruct Hin as [H|H].
    + eapply advances_weaken; [|apply IHr1, H]. apply Nat.le_min_l.
    + eapply advances_weaken; [|apply IHr2, H]. apply Nat.le_min_r.
  - apply in_app_or in Hin. destruct Hin as [H|[<-|[]]].
    + eapply advances_weaken; [|apply IHr, H]. lia.
    + apply advances_refl.
  - destruct p as [b t]. now apply rep_advances in Hin.
  - auto.
  - destruct (fst p); [|contradiction]. destruct Hin as [<-|[]]. apply advances_refl.
  - destruct (snd p); [|contradiction]. destruct Hin as [<-|[]]. apply advances_refl.
  - destruct (rmatch ic r p); [contradiction|].
    destruct Hin as [<-|[]]. apply advances_refl.
  - destruct (fst p) as [|x b]; [contradiction|].
    destruct (cls_mem ic k x); [|contradiction].
    destruct Hin as [<-|[]]. apply advances_refl.
Qed.

Lemma match_at_advances re p q :
  match_at re p = Some q -> advances (minlen (pattern re)) p q.
Proof.
  unfold match_at. intros H. apply rmatch_advances with (ic := ignoreCase re).
  destruct (rmatch (ignoreCase re) (pattern re) p); simpl in H; [discriminate|].
  injection H as ->. now left.
Qed.

Lemma search_eq re before rest :
  search re before rest =
  match match_at re (before, rest) with
  | Some q => Some ((before, rest), q)
  | None =>
      match rest with
      | c :: rest' => search re (c :: before) rest'
      | [] => None
      end
  end.
Proof. destruct rest; reflexivity. Qed.

Lemma search_advances re rest :
  forall before p q,
    search re before rest = Some (p, q) ->
    advances 0 (before, rest) p /\ advances (minlen (pattern re)) p q.
Proof.
  induction rest as [|c rest IH]; intros before p q H; rewrite search_eq in H.
  - destruct (match_at re _) eqn:E; [|discriminate H].
    injection H as <- <-. split; [apply advances_refl|now apply match_at_advances].
  - destruct (match_at re _) eqn:E.
    + injection H as <- <-. split; [apply advances_refl|now apply match_at_advances].
    + apply IH in H. destruct H as [H1 H2]. split; [|exact H2].
      apply advances_step in H1. eapply advances_weaken; [|exact H1]. lia.
Qed.

Lemma at_index_subject text i :
  rev (fst (at_index text i)) ++ snd (at_index text i) = text.
Proof. unfold at_index. simpl. rewrite rev_involutive. apply firstn_skipn. Qed.

Lemma index_at_index text i : i <= length text -> index (at_index text i) = i.
Proof.
  intros H. unfold index, at_index. simpl. rewrite length_rev, length_firstn. lia.
Qed.

Lemma index_le_subject p : index p <= length (rev (fst p) ++ snd p).
Proof. unfold index. rewrite length_app, length_rev. lia. Qed.

(** A successful [exec] moves [lastIndex] forward by at least the minimal
    match length, and never beyond the end of the text. *)
Lemma exec_lastIndex re text lastIndex match0 lastIndex' :
  exec re text lastIndex = Some (match0, lastIndex') ->
  lastIndex + minlen (pattern re) <= lastIndex' /\ lastIndex' <= length text.
Proof.
  unfold exec. destruct (length text <? lastIndex) eqn:E; [discriminate|].
  apply Nat.ltb_ge in E.
  destruct (search re _ _) as [[p q]|] eqn:S; [|discriminate].
  intros H. injection H as _ <-.
  apply search_advances in S. destruct S as [S1 S2].
  pose proof (advances_index S1) as I1. pose proof (advances_index S2) as I2.
  pose proof (advances_subject S1) as J1. pose proof (advances_subject S2) as J2.
  assert (Hp : (fst (at_index text lastIndex), snd (at_index text lastIndex))
               = at_index text lastIndex) by now destruct (at_index text lastIndex).
  rewrite Hp in *. rewrite index_at_index in I1 by exact E.
  split; [lia|].
  pose proof (index_le_subject q) as L. rewrite J2, J1, at_index_subject in L. exact L.
Qed.

End RegexFacts.

(** ** The loops of extractGapsFromText *)

Module ExtractFacts.
Import Regex RegexFacts.

Lemma set_lastIndex_same s i v : set_lastIndex s i v i = v.
Proof. unfold set_lastIndex. now rewrite Nat.eqb_refl. Qed.

(** *** Termination of the [while] loops

    Every pattern of [GAP_PATTERNS] consumes at least one character, so each
    successful [exec] moves [lastIndex] forward and [length text + 1] calls
    are always enough. *)

Lemma while_exec_finishes re text maxCount :
  0 < minlen (pattern re) ->
  forall fuel lastIndex gaps seen,
    1 <= fuel -> S (length text) <= fuel + lastIndex ->
    while_exec fuel re text maxCount lastIndex gaps seen <> None.
Proof.
  intros Hmin. induction fuel as [|fuel IH]; intros lastIndex gaps seen H1 H2; [lia|].
  cbn [while_exec]. destruct (exec re text lastIndex) as [[match0 lastIndex']|] eqn:E;
    [|discriminate].
  apply exec_lastIndex in E. destruct E as [E1 E2].
  assert (F1 : 1 <= fuel) by lia.
  assert (F2 : S (length text) <= fuel + lastIndex') by lia.
  destruct (length (Str.trim match0) <? 15); [now apply IH|].
  destruct (existsb _ FILTER_PATTERNS); [now apply IH|].
  destruct (record maxCount (Str.trim match0) gaps seen); [discriminate|].
  now apply IH.
Qed.

Lemma pass1_finishes text maxCount patterns :
  Forall (fun re => 0 < minlen (pattern re)) patterns ->
  forall i s gaps seen, pass1 patterns i text maxCount s gaps seen <> None.
Proof.
  induction 1 as [|re patterns Hre _ IH]; intros i s gaps seen; cbn [pass1]; [discriminate|].
  rewrite set_lastIndex_same.
  pose proof (@while_exec_finishes re text maxCount Hre (S (length text)) 0 gaps seen)
    as W.
  destruct (while_exec (S (length text)) re text maxCount 0 gaps seen)
    as [[[g|g sn] li]|]; [discriminate|apply IH|].
  exfalso. apply W; [lia|lia|reflexivity].
Qed.

Lemma GAP_PATTERNS_consume :
  Forall (fun re => 0 < minlen (pattern re)) GAP_PATTERNS.
Proof.
  apply Forall_forall. intros re Hin. unfold GAP_PATTERNS in Hin. simpl in Hin.
  repeat (destruct Hin as [<-|Hin]; [vm_compute; lia|]). contradiction.
Qed.

Lemma extractGapsFromText_finishes text maxCount s :
  exists gaps s', extractGapsFromText text maxCount s = Some (gaps, s').
Proof.
  unfold extractGapsFromText.
  pose proof (@pass1_finishes text maxCount _ GAP_PATTERNS_consume 0 s [] []) as P.
  destruct (pass1 GAP_PATTERNS 0 text maxCount s [] []) as [[[g|g sn] s']|];
    [eauto|eauto|contradiction].
Qed.

(** *** Loop invariants

    A property [Inv] of the two arrays that [record] keeps, and that gives
    [Post] for the array it returns, holds for whatever the function returns. *)

Section Invariant.

Variable maxCount : Z.
Variable Inv : list jsstring -> list jsstring -> Prop.
Variable Post : list jsstring -> Prop.

Hypothesis record_keeps : forall gap gaps seen,
  Inv gaps seen ->
  match record maxCount gap gaps seen with
  | Return gaps' => Post gaps'
  | Continue gaps' seen' => Inv gaps' seen'
  end.

Hypothesis fall_through : forall gaps seen, Inv gaps seen -> Post gaps.

Lemma while_exec_keeps re text :
  forall fuel lastIndex gaps seen f lastIndex',
    Inv gaps seen ->
    while_exec fuel re text maxCount lastIndex gaps seen = Some (f, lastIndex') ->
    flow_ok Inv Post f.
Proof.
  induction fuel as [|fuel IH]; intros lastIndex gaps seen f lastIndex' HI H;
    cbn [while_exec] in H; [discriminate|].
  destruct (exec re text lastIndex) as [[match0 li]|].
  - destruct (length (Str.trim match0) <? 15); [eapply IH; eauto|].
    destruct (existsb _ FILTER_PATTERNS); [eapply IH; eauto|].
    pose proof (record_keeps (Str.trim match0) HI) as K.
    destruct (record maxCount (Str.trim match0) gaps seen) as [g|g sn].
    + injection H as <- _. exact K.
    + eapply IH; eauto.
  - injection H as <- _. exact HI.
Qed.

Lemma pass1_keeps text :
  forall patterns i s gaps seen f s',
    Inv gaps seen ->
    pass1 patterns i text maxCount s gaps seen = Some (f, s') ->
    flow_ok Inv Post f.
Proof.
  induction patterns as [|re patterns IH]; intros i s gaps seen f s' HI H;
    cbn [pass1] in H.
  - injection H as <- _. exact HI.
  - destruct (while_exec _ re text maxCount _ gaps seen) as [[f1 li]|] eqn:W;
      [|discriminate].
    pose proof (@while_exec_keeps _ _ _ _ _ _ _ _ HI W) as K.
    destruct f1 as [g|g sn].
    + injection H as <- _. exact K.
    + eapply IH; eauto.
Qed.

Lemma pass2_keeps :
  forall sentences gaps seen,
    Inv gaps seen -> Post (pass2 sentences maxCount gaps seen).
Proof.
  induction sentences as [|sentence sentences IH]; intros gaps seen HI;
    cbn [pass2].
  - now apply fall_through with seen.
  - destruct (negb (Str.endsWith _ _)); [now apply IH|].
    destruct (length _ <? 30); [now apply IH|].
    destruct (existsb _ FILTER_PATTERNS); [now apply IH|].
    destruct (existsb _ DOCUMENT_NOISE_PATTERNS); [now apply IH|].
    destruct (negb (test WH_VERB _) && negb (test PRONOUN_VERB _))%bool;
      [now apply IH|].
    pose proof (record_keeps (Str.trim sentence) HI) as K.
    destruct (record maxCount (Str.trim sentence) gaps seen) as [g|g sn];
      [exact K|now apply IH].
Qed.

Lemma extractGapsFromText_keeps text s gaps s' :
  Inv [] [] ->
  extractGapsFromText text maxCount s = Some (gaps, s') ->
  Post gaps.
Proof.
  unfold extractGapsFromText. intros HI H.
  destruct (pass1 GAP_PATTERNS 0 text maxCount s [] []) as [[f s1]|] eqn:P;
    [|discriminate].
  pose proof (@pass1_keeps _ _ _ _ _ _ _ _ HI P) as K.
  destruct f as [g|g sn]; injection H as <- _; [exact K|now apply pass2_keeps].
Qed.

End Invariant.

(** *** The cap *)

Lemma record_cap maxCount gap gaps seen :
  (Z.of_nat (length gaps) < Z.max 1 maxCount)%Z ->
  match record maxCount gap gaps seen with
  | Return gaps' => (Z.of_nat (length gaps') <= Z.max 1 maxCount)%Z
  | Continue gaps' _ => (Z.of_nat (length gaps') < Z.max 1 maxCount)%Z
  end.
Proof.
  intros H. unfold record. destruct (has seen (normalize gap)); [exact H|].
  cbv zeta.
  assert (L : length (gaps ++ [gap]) = S (length gaps))
    by (rewrite length_app; simpl; lia).
  destruct (Z.of_nat (length (gaps ++ [gap])) >=? maxCount)%Z eqn:E;
    rewrite Z.geb_leb in E; [apply Z.leb_le in E|apply Z.leb_gt in E];
    rewrite L in *; lia.
Qed.

(** The array returned holds at most [maxCount] strings, and at most one
    when [maxCount] is below 1. *)
Lemma extractGapsFromText_cap text maxCount s gaps s' :
  extractGapsFromText text maxCount s = Some (gaps, s') ->
  (Z.of_nat (length gaps) <= Z.max 1 maxCount)%Z.
Proof.
  intros H.
  apply (@extractGapsFromText_keeps maxCount
           (fun gaps _ => (Z.of_nat (length gaps) < Z.max 1 maxCount)%Z)
           (fun gaps => (Z.of_nat (length gaps) <= Z.max 1 maxCount)%Z))
    with (text := text) (s := s) (s' := s'); [| | |exact H].
  - intros. now apply record_cap.
  - intros. lia.
  - simpl. lia.
Qed.

(** *** No two equal normalized forms *)

Lemma jsstring_eqb_eq a : forall b, jsstring_eqb a b = true <-> a = b.
Proof.
  induction a as [|x a IH]; intros [|y b]; simpl; split; intros H;
    try discriminate; try reflexivity.
  - apply andb_prop in H. destruct H as [H1 H2].
    apply Ascii.eqb_eq in H1. apply IH in H2. congruence.
  - injection H as -> ->. rewrite Ascii.eqb_refl. simpl. now apply IH.
Qed.

Lemma has_false seen key : has seen key = false -> ~ In key seen.
Proof.
  unfold has. intros H Hin.
  assert (existsb (jsstring_eqb key) seen = true); [|congruence].
  apply existsb_exists. exists key. split; [exact Hin|now apply jsstring_eqb_eq].
Qed.

Lemma record_distinct maxCount gap gaps seen :
  distinct gaps seen ->
  match record maxCount gap gaps seen with
  | Return gaps' => NoDup (map normalize gaps')
  | Continue gaps' seen' => distinct gaps' seen'
  end.
Proof.
  intros [Hnd Hseen]. unfold record.
  destruct (has seen (normalize gap)) eqn:Hhas; [now split|].
  apply has_false in Hhas.
  assert (Hnd' : NoDup (map normalize (gaps ++ [gap]))).
  { rewrite map_app. simpl. apply NoDup_app; [exact Hnd|repeat constructor; auto|].
    intros x Hx [<-|[]]. apply Hhas.
    apply in_map_iff in Hx. destruct Hx as (g & <- & Hg). now apply Hseen. }
  destruct (Z.of_nat (length (gaps ++ [gap])) >=? maxCount)%Z; [exact Hnd'|].
  split; [exact Hnd'|].
  intros g Hg. apply in_app_or in Hg. destruct Hg as [Hg|[<-|[]]].
  - right. now apply Hseen.
  - now left.
Qed.

Lemma extractGapsFromText_distinct text maxCount s gaps s' :
  extractGapsFromText text maxCount s = Some (gaps, s') ->
  NoDup (map normalize gaps).
Proof.
  intros H.
  apply (@extractGapsFromText_keeps maxCount distinct
           (fun gaps => NoDup (map normalize gaps)))
    with (text := text) (s := s) (s' := s'); [| | |exact H].
  - intros. now apply record_distinct.
  - now intros gaps0 seen [H0 _].
  - split; [constructor|intros g []].
Qed.

(** *** The state of the RegExp objects does not matter

    Each pattern's [lastIndex] is reset before its loop, so the array
    returned is the same whatever the objects held on entry. *)

Lemma pass1_state text maxCount :
  forall patterns i s1 s2 gaps seen,
    option_map fst (pass1 patterns i text maxCount s1 gaps seen) =
    option_map fst (pass1 patterns i text maxCount s2 gaps seen).
Proof.
  induction patterns as [|re patterns IH]; intros i s1 s2 gaps seen; cbn [pass1].
  - reflexivity.
  - rewrite !set_lastIndex_same.
    destruct (while_exec (S (length text)) re text maxCount 0 gaps seen)
      as [[[g|g sn] li]|]; [reflexivity|apply IH|reflexivity].
Qed.

Lemma extractGapsFromText_state text maxCount s1 s2 :
  option_map fst (extractGapsFromText text maxCount s1) =
  option_map fst (extractGapsFromText text maxCount s2).
Proof.
  unfold extractGapsFromText.
  pose proof (pass1_state text maxCount GAP_PATTERNS 0 s1 s2 [] []) as P.
  destruct (pass1 GAP_PATTERNS 0 text maxCount s1 [] []) as [[[g1|g1 sn1] t1]|];
    destruct (pass1 GAP_PATTERNS 0 text maxCount s2 [] []) as [[[g2|g2 sn2] t2]|];
    simpl in P; try discriminate; try reflexivity;
    injection P; intros; subst; reflexivity.
Qed.

(** *** A cap that is not reached can be raised *)

Lemma record_return_length c gap gaps seen g :
  record c gap gaps seen = Return g -> (c <= Z.of_nat (length g))%Z.
Proof.
  unfold record. destruct (has seen (normalize gap)); [discriminate|]. cbv zeta.
  destruct (Z.of_nat (length (gaps ++ [gap])) >=? c)%Z eqn:E; [|discriminate].
  intros H. injection H as <-. rewrite Z.geb_leb in E. now apply Z.leb_le in E.
Qed.

Lemma record_raise c1 c2 gap gaps seen g sn :
  (c1 <= c2)%Z ->
  record c1 gap gaps seen = Continue g sn ->
  record c2 gap gaps seen = Continue g sn.
Proof.
  unfold record. intros Hle. destruct (has seen (normalize gap)); [auto|]. cbv zeta.
  destruct (Z.of_nat (length (gaps ++ [gap])) >=? c1)%Z eqn:E1; [discriminate|].
  rewrite Z.geb_leb in E1. apply Z.leb_gt in E1.
  destruct (Z.of_nat (length (gaps ++ [gap])) >=? c2)%Z eqn:E2; [|auto].
  rewrite Z.geb_leb in E2. apply Z.leb_le in E2. lia.
Qed.

Lemma while_exec_raise c1 c2 re text :
  (c1 <= c2)%Z ->
  forall fuel lastIndex gaps seen g sn lastIndex',
    while_exec fuel re text c1 lastIndex gaps seen = Some (Continue g sn, lastIndex') ->
    while_exec fuel re text c2 lastIndex gaps seen = Some (Continue g sn, lastIndex').
Proof.
  intros Hle. induction fuel as [|fuel IH]; intros lastIndex gaps seen g sn lastIndex' H;
    cbn [while_exec] in H |- *; [discriminate|].
  destruct (exec re text lastIndex) as [[match0 li]|]; [|exact H].
  destruct (length (Str.trim match0) <? 15); [now apply IH|].
  destruct (existsb _ FILTER_PATTERNS); [now apply IH|].
  destruct (record c1 (Str.trim match0) gaps seen) as [g1|g1 sn1] eqn:R;
    [discriminate|].
  rewrite (record_raise _ _ _ Hle R). now apply IH.
Qed.

Lemma while_exec_return_length c re text :
  forall fuel lastIndex gaps seen g lastIndex',
    while_exec fuel re text c lastIndex gaps seen = Some (Return g, lastIndex') ->
    (c <= Z.of_nat (length g))%Z.
Proof.
  intros fuel lastIndex gaps seen g lastIndex' H.
  apply (@while_exec_keeps c (fun _ _ => True)
           (fun g => (c <= Z.of_nat (length g))%Z)) in H; [exact H| |exact I].
  intros gap gaps0 seen0 _.
  destruct (record c gap gaps0 seen0) eqn:R; [|exact I].
  now apply record_return_length in R.
Qed.

Lemma pass1_raise c1 c2 text :
  (c1 <= c2)%Z ->
  forall patterns i s gaps seen g sn s',
    pass1 patterns i text c1 s gaps seen = Some (Continue g sn, s') ->
    pass1 patterns i text c2 s gaps seen = Some (Continue g sn, s').
Proof.
  intros Hle. induction patterns as [|re patterns IH]; intros i s gaps seen g sn s' H;
    cbn [pass1] in H |- *; [exact H|].
  destruct (while_exec _ re text c1 _ gaps seen) as [[[g1|g1 sn1] li]|] eqn:W;
    try discriminate.
  rewrite (while_exec_raise _ _ Hle _ _ _ _ W). now apply IH.
Qed.

Lemma pass1_return_length c text :
  forall patterns i s gaps seen g s',
    pass1 patterns i text c s gaps seen = Some (Return g, s') ->
    (c <= Z.of_nat (length g))%Z.
Proof.
  intros patterns i s gaps seen g s' H.
  apply (@pass1_keeps c (fun _ _ => True)
           (fun g => (c <= Z.of_nat (length g))%Z)) in H; [exact H| |exact I].
  intros gap gaps0 seen0 _.
  destruct (record c gap gaps0 seen0) eqn:R; [|exact I].
  now apply record_return_length in R.
Qed.

Lemma pass2_raise c1 c2 :
  (c1 <= c2)%Z ->
  forall sentences gaps seen,
    (Z.of_nat (length (pass2 sentences c1 gaps seen)) < c1)%Z ->
    pass2 sentences c2 gaps seen = pass2 sentences c1 gaps seen.
Proof.
  intros Hle. induction sentences as [|sentence sentences IH]; intros gaps seen H;
    cbn [pass2] in H |- *; [reflexivity|].
  destruct (negb (Str.endsWith _ _)); [now apply IH|].
  destruct (length _ <? 30); [now apply IH|].
  destruct (existsb _ FILTER_PATTERNS); [now apply IH|].
  destruct (existsb _ DOCUMENT_NOISE_PATTERNS); [now apply IH|].
  destruct (negb (test WH_VERB _) && negb (test PRONOUN_VERB _))%bool;
    [now apply IH|].
  destruct (record c1 (Str.trim sentence) gaps seen) as [g1|g1 sn1] eqn:R.
  - apply record_return_length in R. lia.
  - rewrite (record_raise _ _ _ Hle R). now apply IH.
Qed.

Lemma extractGapsFromText_raise c1 c2 text s gaps s' :
  (c1 <= c2)%Z ->
  extractGapsFromText text c1 s = Some (gaps, s') ->
  (Z.of_nat (length gaps) < c1)%Z ->
  extractGapsFromText text c2 s = Some (gaps, s').
Proof.
  unfold extractGapsFromText. intros Hle H Hlen.
  destruct (pass1 GAP_PATTERNS 0 text c1 s [] []) as [[[g1|g1 sn1] t1]|] eqn:P;
    try discriminate.
  - injection H as <- <-. apply pass1_return_length in P. lia.
  - rewrite (@pass1_raise c1 c2 text Hle _ _ _ _ _ _ _ _ P).
    injection H as <- <-. f_equal. f_equal. now apply pass2_raise.
Qed.

End ExtractFacts.

(** ** Strings and lists *)

Module StrFacts.

Lemma startsWith_spec s : forall prefix,
  Str.startsWith s prefix = true <-> exists post, s = prefix ++ post.
Proof.
  induction s as [|c s IH]; intros [|p prefix]; simpl.
  - split; [exists []; reflexivity|reflexivity].
  - split; [discriminate|intros [post H]; discriminate].
  - split; [exists (c :: s); reflexivity|reflexivity].
  - rewrite andb_true_iff, Ascii.eqb_eq, IH. split.
    + intros [-> [post ->]]. now exists post.
    + intros [post H]. injection H as -> ->. split; [reflexivity|now exists post].
Qed.

Lemma includes_spec s : forall needle,
  Str.includes s needle = true <-> occurs needle s.
Proof.
  induction s as [|c s IH]; intros needle; cbn [Str.includes];
    rewrite orb_true_iff, startsWith_spec.
  - split.
    + intros [[post H]|H]; [|discriminate]. exists [], post. exact H.
    + intros ([|x pre] & post & H); [left; now exists post|discriminate].
  - rewrite IH. split.
    + intros [[post H]|(pre & post & H)].
      * exists [], post. exact H.
      * exists (c :: pre), post. simpl. now rewrite H.
    + intros ([|x pre] & post & H).
      * left. now exists post.
      * right. injection H as _ ->. now exists pre, post.
Qed.

Lemma sliceLast_app {A} (n : nat) (pre tail : list A) :
  length tail = n -> sliceLast n (pre ++ tail) = tail.
Proof.
  intros H. unfold sliceLast. rewrite length_app, H.
  replace (length pre + n - n) with (length pre) by lia.
  rewrite skipn_app, skipn_all, Nat.sub_diag. reflexivity.
Qed.

End StrFacts.

(** ** Context blocks run to the end of the text *)

Module StripFacts.
Import Regex RegexFacts StrFacts.

Lemma ci_prefix_canonical w : forall t,
  ci_prefix true w t = Str.startsWith (canonical t) (canonical w).
Proof.
  induction w as [|c w IH]; intros [|x t]; simpl; try reflexivity.
  rewrite IH. reflexivity.
Qed.

(** A literal matches exactly when it is a prefix, and then in one way. *)
Lemma rmatch_lit_chars ic w : forall b t,
  rmatch ic (lit_chars w) (b, t) =
  if ci_prefix ic w t
  then [(rev (firstn (length w) t) ++ b, skipn (length w) t)]
  else [].
Proof.
  induction w as [|c w IH]; intros b t.
  - reflexivity.
  - destruct w as [|c' w].
    + destruct t as [|x t]; simpl; [reflexivity|].
      destruct (Char.eqb_ci ic c x); reflexivity.
    + change (lit_chars (c :: c' :: w)) with (Seq (Lit c) (lit_chars (c' :: w))).
      cbn [rmatch fst snd]. destruct t as [|x t]; [reflexivity|].
      change (ci_prefix ic (c :: c' :: w) (x :: t))
        with (Char.eqb_ci ic c x && ci_prefix ic (c' :: w) t)%bool.
      destruct (Char.eqb_ci ic c x); [|reflexivity].
      cbn [flat_map andb]. rewrite IH, app_nil_r.
      destruct (ci_prefix ic (c' :: w) t); [|reflexivity].
      cbn [length firstn skipn rev]. now rewrite <- app_assoc.
Qed.

Lemma no_opener_iff text : no_opener text <-> no_opener_b text = true.
Proof.
  unfold no_opener, no_opener_b. rewrite forallb_forall. split.
  - intros H w Hw. apply negb_true_iff.
    destruct (Str.includes (canonical text) w) eqn:E; [|reflexivity].
    apply includes_spec in E. exfalso. now apply (H w).
  - intros H w Hw Hocc. apply includes_spec in Hocc.
    apply H in Hw. rewrite Hocc in Hw. discriminate.
Qed.

Lemma OPENER_eq :
  OPENER =
  Seq (lit_chars (str "["))
    (Alt (lit_chars (str "CONTINUITY"))
       (Alt (lit_chars (str "STABILITY"))
          (Alt (lit_chars (str "GROWTH")) (lit_chars (str "MEMORY"))))).
Proof. reflexivity. Qed.

Lemma OPENER_fails b t :
  (forall w, In w OPENERS -> Str.startsWith (canonical t) w = false) ->
  rmatch true OPENER (b, t) = [].
Proof.
  intros H. rewrite OPENER_eq. cbn [rmatch]. rewrite rmatch_lit_chars.
  destruct t as [|x t]; [reflexivity|].
  change (ci_prefix true (str "[") (x :: t))
    with (Char.eqb_ci true "[" x && true)%bool.
  destruct (Char.eqb_ci true "[" x) eqn:E; [|reflexivity].
  cbn [andb flat_map]. rewrite !rmatch_lit_chars.
  assert (K : forall w, In (str "[" ++ w) OPENERS ->
                canonical (str "[" ++ w) = str "[" ++ w ->
                ci_prefix true w t = false).
  { intros w Hw Hc. apply H in Hw. rewrite <- Hc, <- ci_prefix_canonical in Hw.
    change (ci_prefix true (str "[" ++ w) (x :: t))
      with (Char.eqb_ci true "[" x && ci_prefix true w t)%bool in Hw.
    now rewrite E in Hw. }
  change (skipn (length (str "[")) (x :: t)) with t.
  rewrite (K (str "CONTINUITY")), (K (str "STABILITY")), (K (str "GROWTH")),
    (K (str "MEMORY")); try reflexivity; simpl; auto.
Qed.

(** Without an opener ahead, the lazy [[\s\S]*?] runs to the end of the
    text: the end is the first place where [BLOCK_END] holds. *)
Lemma lazy_star_reaches_end t : forall b,
  no_opener_b t = true ->
  hd_error (flat_map (rmatch true BLOCK_END) (rep true false AnyChar 0 None b t))
  = Some (rev t ++ b, []).
Proof.
  induction t as [|c t IH]; intros b H.
  - reflexivity.
  - cbn [rep]. change (cls_mem true AnyChar c && room None)%bool with true.
    cbn iota. cbn [app flat_map].
    assert (Hhead : forall w, In w OPENERS ->
                      Str.startsWith (canonical (c :: t)) w = false).
    { intros w Hw. unfold no_opener_b in H. rewrite forallb_forall in H.
      apply H in Hw. apply negb_true_iff in Hw.
      cbn [canonical map Str.includes] in Hw. now apply orb_false_iff in Hw. }
    assert (Htail : no_opener_b t = true).
    { unfold no_opener_b in *. rewrite forallb_forall in *. intros w Hw.
      apply H in Hw. apply negb_true_iff in Hw. apply negb_true_iff.
      cbn [canonical map Str.includes] in Hw. now apply orb_false_iff in Hw. }
    unfold BLOCK_END at 1. cbn [rmatch snd]. rewrite (@OPENER_fails b (c :: t) Hhead).
    cbn [app Nat.pred option_map]. rewrite (IH (c :: b) Htail).
    cbn [rev]. now rewrite <- app_assoc.
Qed.

Lemma CONTEXT_BLOCK_PATTERN_eq :
  pattern CONTEXT_BLOCK_PATTERN =
  Seq (lit_chars (str "["))
    (Seq (Alt (lit_chars (str "CONTINUITY CONTEXT"))
            (Alt (lit_chars (str "STABILITY CONTEXT"))
               (Alt (lit_chars (str "GROWTH VECTORS"))
                  (lit_chars (str "MEMORY INTEGRATION")))))
       (Seq (lit_chars (str "]")) (Seq (Rep false 0 None AnyChar) BLOCK_END))).
Proof. reflexivity. Qed.

Lemma eqb_ci_canonical p x X :
  Char.canonicalize x = X ->
  Char.eqb_ci true p x = Ascii.eqb (Char.canonicalize p) X.
Proof. intros <-. reflexivity. Qed.

(** Settle the comparisons with characters whose canonical form is known. *)
Ltac fold_case :=
  repeat match goal with
         | H : Char.canonicalize ?x = _ |- context [Char.eqb_ci true ?p ?x] =>
             rewrite (@eqb_ci_canonical p x _ H)
         end.

(** From [H : map canonicalize h = c1 :: ... :: cn], name the characters of
    [h] and what each of them folds to. *)
Ltac spell h H :=
  repeat (destruct h as [|? h]; [discriminate H|];
          apply (f_equal (fun l => (hd "000"%char l, tl l))) in H;
          cbn [hd tl map canonical] in H;
          injection H as ? H);
  destruct h; [|discriminate H]; clear H.


Lemma no_match_at_end b : match_at CONTEXT_BLOCK_PATTERN (b, []) = None.
Proof. reflexivity. Qed.

(** Dropping the characters of a match that reaches the end of the text
    leaves nothing. *)
Lemma replace_from_skip_all re by_ live t : forall b,
  (forall b', match_at re (b', []) = None) ->
  replace_from re by_ b t (length t) live = [].
Proof.
  induction t as [|c t IH]; intros b H.
  - cbn [length replace_from]. destruct live; [|reflexivity].
    now rewrite H.
  - cbn [length replace_from]. now apply IH.
Qed.



End StripFacts.

(** ** identifyGaps as a whole *)

Module IdentifyFacts.
Import Regex RegexFacts ExtractFacts StrFacts StripFacts.

Lemma length_mapi {A B} (f : nat -> A -> B) l : forall idx,
  length (mapi f idx l) = length l.
Proof. induction l as [|x l IH]; intros idx; simpl; [reflexivity|now rewrite IH]. Qed.

Lemma questions_mapi clock src text e qs : forall idx,
  map Gap.question (mapi (wrap clock src text e) idx qs) = qs.
Proof. induction qs as [|q qs IH]; intros idx; simpl; [reflexivity|now rewrite IH]. Qed.

Lemma timeless_mapi clock1 clock2 src1 src2 text e qs : forall idx1 idx2,
  map (fun g => (Gap.question g, Gap.context g, Gap.entropy g))
    (mapi (wrap clock1 src1 text e) idx1 qs) =
  map (fun g => (Gap.question g, Gap.context g, Gap.entropy g))
    (mapi (wrap clock2 src2 text e) idx2 qs).
Proof.
  induction qs as [|q qs IH]; intros idx1 idx2; simpl; [reflexivity|].
  now rewrite (IH (S idx1) (S idx2)).
Qed.

(** identifyGaps always finishes: it returns or it throws. *)
Lemma identifyGaps_finishes clock s p : identifyGaps clock s p <> Diverges.
Proof.
  unfold identifyGaps.
  destruct (conversationText (messages p)) as [[|c text]|e];
    [discriminate| |discriminate].
  destruct (Qltb _ _ && negb _)%bool; [discriminate|].
  destruct (extractGapsFromText_finishes (c :: text) (maxGapsOf p) s)
    as (gaps & s' & E).
  rewrite E. discriminate.
Qed.

(** What a returned array comes from: nothing, or the extraction run on the
    conversation text. *)
Lemma identifyGaps_returns clock s p gaps s' :
  identifyGaps clock s p = Returns gaps s' ->
  gaps = [] \/
  exists text,
    conversationText (messages p) = Normal text /\
    extractGapsFromText text (maxGapsOf p) s = Some (map Gap.question gaps, s').
Proof.
  unfold identifyGaps.
  destruct (conversationText (messages p)) as [[|c text]|e];
    [| |discriminate].
  - intros H. injection H as <- _. now left.
  - destruct (Qltb _ _ && negb _)%bool.
    + intros H. injection H as <- _. now left.
    + destruct (extractGapsFromText (c :: text) (maxGapsOf p) s)
        as [[qs s1]|] eqn:E; [|discriminate].
      intros H. injection H as <- <-. right. exists (c :: text).
      split; [reflexivity|]. now rewrite questions_mapi.
Qed.

Lemma Qltb_true a b : (a < b)%Q -> Qltb a b = true.
Proof.
  intros H. unfold Qltb. apply negb_true_iff.
  destruct (Qle_bool b a) eqn:E; [|reflexivity].
  apply Qle_bool_iff in E. exfalso. now apply (Qlt_not_le a b).
Qed.

Lemma keywordHit_false ks text :
  (forall k, In k ks -> ~ occurs (Str.toLowerCase k) (Str.toLowerCase text)) ->
  keywordHit ks text = false.
Proof.
  intros H. unfold keywordHit.
  destruct (existsb _ ks) eqn:E; [|reflexivity].
  apply existsb_exists in E. destruct E as (k & Hk & Hinc).
  apply includes_spec in Hinc. exfalso. now apply (H k).
Qed.

Lemma Qltb_false a b : (b <= a)%Q -> Qltb a b = false.
Proof.
  intros H. unfold Qltb. apply negb_false_iff. now apply Qle_bool_iff.
Qed.

Lemma returned_Returns o gaps :
  returned o = Some gaps -> exists s', o = Returns gaps s'.
Proof. destruct o; simpl; intros H; try discriminate. injection H as ->. eauto. Qed.

(** The clock and the state of the RegExp objects reach only the [id] and
    [source] fields of the records. *)
Lemma identifyGaps_timeless clockA clockB sA sB p :
  timeless (identifyGaps clockA sA p) = timeless (identifyGaps clockB sB p).
Proof.
  unfold identifyGaps.
  destruct (conversationText (messages p)) as [[|c text]|e];
    [reflexivity| |reflexivity].
  destruct (Qltb _ _ && negb _)%bool; [reflexivity|].
  pose proof (extractGapsFromText_state (c :: text) (maxGapsOf p) sA sB) as E.
  destruct (extractGapsFromText (c :: text) (maxGapsOf p) sA) as [[qa ta]|];
    destruct (extractGapsFromText (c :: text) (maxGapsOf p) sB) as [[qb tb]|];
    cbn [option_map fst] in E.
  - injection E as <-. cbn [timeless]. do 2 f_equal. apply timeless_mapi.
  - discriminate E.
  - discriminate E.
  - reflexivity.
Qed.

Lemma timeless_questions o1 o2 :
  timeless o1 = timeless o2 -> questions o1 = questions o2.
Proof.
  destruct o1 as [g1 s1|e1|], o2 as [g2 s2|e2|]; simpl; intros H;
    try discriminate; try reflexivity.
  injection H as H. f_equal.
  apply (f_equal (map (fun t : list ascii * list ascii * Q => fst (fst t)))) in H.
  rewrite !map_map in H. exact H.
Qed.

(** With the same clock the records are the same too. *)
Lemma identifyGaps_returned_state clock sA sB p :
  returned (identifyGaps clock sA p) = returned (identifyGaps clock sB p).
Proof.
  unfold identifyGaps.
  destruct (conversationText (messages p)) as [[|c text]|e];
    [reflexivity| |reflexivity].
  destruct (Qltb _ _ && negb _)%bool; [reflexivity|].
  pose proof (extractGapsFromText_state (c :: text) (maxGapsOf p) sA sB) as E.
  destruct (extractGapsFromText (c :: text) (maxGapsOf p) sA) as [[qa ta]|];
    destruct (extractGapsFromText (c :: text) (maxGapsOf p) sB) as [[qb tb]|];
    cbn [option_map fst] in E.
  - injection E as <-. reflexivity.
  - discriminate E.
  - discriminate E.
  - reflexivity.
Qed.

(** The questions found under a cap that was not reached are found under
    every larger cap, whatever the state of the RegExp objects. *)
Lemma questions_raise c1 c2 text s0 qs :
  (c1 <= c2)%Z ->
  option_map fst (extractGapsFromText text c1 s0) = Some qs ->
  (Z.of_nat (length qs) < c1)%Z ->
  forall s, option_map fst (extractGapsFromText text c2 s) = Some qs.
Proof.
  intros Hle H0 Hlen s.
  rewrite (extractGapsFromText_state text c1 s0 s) in H0.
  destruct (extractGapsFromText text c1 s) as [[g s1]|] eqn:E; [|discriminate].
  simpl in H0. injection H0 as ->.
  now rewrite (@extractGapsFromText_raise c1 c2 text s qs s1 Hle E Hlen).
Qed.

(** Only the last six messages are read. *)
Lemma conversationText_window pre tail :
  length tail = 6 ->
  conversationText (Some (pre ++ tail)) = conversationText (Some tail).
Proof.
  intros H. unfold conversationText.
  rewrite (sliceLast_app pre tail H).
  replace (sliceLast 6 tail) with tail; [reflexivity|].
  unfold sliceLast. rewrite H, Nat.sub_diag. reflexivity.
Qed.



(** A [null] among the messages the loop visits makes it throw. *)
Lemma conversationParts_null recent :
  In VNull recent -> conversationParts recent = Throw TypeError.
Proof.
  induction recent as [|msg recent IH]; intros Hin; [contradiction|].
  destruct Hin as [->|Hin]; [reflexivity|].
  cbn [conversationParts]. rewrite (IH Hin).
  destruct (Value.get msg "role") as [role|[]]; [|reflexivity].
  destruct (negb (is_user role)); [reflexivity|].
  destruct (normalizeText msg) as [[|c text]|[]]; [reflexivity| |reflexivity].
  destruct (10 <? _); reflexivity.
Qed.

Lemma sliceLast_keeps {A} (n : nat) (earlier later : list A) (x : A) :
  length later < n -> In x (sliceLast n (earlier ++ x :: later)).
Proof.
  intros H. unfold sliceLast. rewrite skipn_app.
  apply in_or_app. right.
  replace (length (earlier ++ x :: later) - n - length earlier) with 0.
  - now left.
  - rewrite length_app. simpl. lia.
Qed.

(** identifyGaps on a conversation text that is not empty. *)
Lemma identifyGaps_nonempty clock s p text :
  conversationText (messages p) = Normal text -> text <> [] ->
  identifyGaps clock s p =
  if (Qltb (entropyOf p) (thresholdOf p)
      && negb (keywordHit (keywordsOf p) text))%bool
  then Returns [] s
  else
    match extractGapsFromText text (maxGapsOf p) s with
    | None => Diverges
    | Some (qs, s') =>
        Returns (mapi (wrap clock (source p) text (entropyOf p)) 0 qs) s'
    end.
Proof.
  intros H Hne. unfold identifyGaps. rewrite H.
  destruct text; [contradiction|reflexivity].
Qed.

End IdentifyFacts.

(** ** The module run on small inputs *)

Module Scenarios.

(** A conversational opener is filtered out of both passes. *)
Example would_you_mind clock s :
  questions
    (identifyGaps clock s
       (exchange [user (str "Would you mind checking that for me?")] (8 # 10) None))
  = Some [].
Proof. vm_compute. reflexivity. Qed.

(** A direct question with a wh-word and an auxiliary is returned as it is. *)
Example quantum_entanglement clock s :
  questions
    (identifyGaps clock s
       (exchange
          [user (str "How does quantum entanglement actually preserve information across distance?")]
          (8 # 10) None))
  = Some [str "How does quantum entanglement actually preserve information across distance?"].
Proof. vm_compute. reflexivity. Qed.

(** Messages of the assistant are not read. *)
Example assistant_is_skipped clock s :
  questions (identifyGaps clock s (exchange [assistant tidal] (8 # 10) None))
  = Some [].
Proof. vm_compute. reflexivity. Qed.

(** The timestamp prefix and the injected marker lines go, the rest stays. *)
Example timestamp_and_markers :
  stripContextBlocks
    (str "[Mon 2026-01-05 10:22 UTC] Entropy: 0.42" ++ [LF] ++ str "Session: 12"
       ++ [LF] ++ str "  hello there  " ++ [LF])
  = str "hello there".
Proof. vm_compute. reflexivity. Qed.

(** Content given as parts: the text fields joined by spaces. *)
Example parts_are_joined :
  normalizeText
    (VObj [("role"%string, VStr (str "user"));
           ("content"%string,
            VArr [VObj [("text"%string, VStr (str "a"))]; VNull;
                  VObj [("content"%string, VNum 5)]])])
  = Normal (str "a  5").
Proof. vm_compute. reflexivity. Qed.

(** A content that is an object prints as [[object Object]], unless it has
    an own [toString], which cannot be called: then the conversion throws,
    and so does the call. *)
Example own_toString_throws clock s :
  normalizeText (user_content (VObj [("valueOf"%string, VNum 1)]))
  = Normal (str "[object Object]")
  /\ normalizeText (user_content (VObj [("toString"%string, VNum 1)]))
     = Throw TypeError
  /\ identifyGaps clock s
       (exchange [user_content (VObj [("toString"%string, VNum 1)])] (1 # 10) None)
     = Throws TypeError.
Proof. repeat split. Qed.

(** A number at or beyond 10^21 prints in exponent form, so that a keyword
    can hit its exponent. *)
Example large_number_content clock s :
  normalizeText (user_content (VNum 1234567800000000000000))
  = Normal (str "1.2345678e+21")
  /\ questions
       (identifyGaps clock s
          (mkParams
             (Some [user_content (VNum 1234567800000000000000); user tidal])
             (Some (1 # 10)%Q)
             (Some (mkConfig (Some (1 # 2)%Q) (Some [str "e+21"]) None)) None))
     = Some [tidal].
Proof. split; vm_compute; reflexivity. Qed.

(** The normalized form: lower case, each run of white space one space. *)
Example normalize_collapses :
  normalize (str "I  Don't" ++ [LF] ++ str "   KNOW this ")
  = str "i don't know this ".
Proof. vm_compute. reflexivity. Qed.

(** [exec] walks through the matches of a global pattern. *)
Example exec_walks :
  exec SPACES (str "a  b c") 0 = Some (str "  ", 3)
  /\ exec SPACES (str "a  b c") 3 = Some (str " ", 5)
  /\ exec SPACES (str "a  b c") 5 = None.
Proof. repeat split. Qed.

(** [split] on sentence ends. *)
Example split_sentences :
  split SENTENCE_BREAK (str "Hi there.  How are you? Fine!")
  = [str "Hi there."; str "How are you?"; str "Fine!"].
Proof. vm_compute. reflexivity. Qed.

End Scenarios.

(** * The claims *)

Import Regex RegexFacts ExtractFacts StrFacts StripFacts IdentifyFacts.

(** C1 (the code at the failing input).  The message list [[null]] holds
    no message of the user, so the corpus the claim speaks of is empty, as
    it is for the empty list, and the claim promises the empty array
    whatever the entropy, the threshold and the keywords.  On the empty
    list the call returns it; on [[null]] the loop reads [msg.role] of the
    null entry, and the call throws before it comes to the gate. *)
Theorem C1_null_entry_before_gate clock s e threshold ks cap src :
  identifyGaps clock s
    (mkParams (Some []) e (Some (mkConfig threshold ks cap)) src)
  = Returns [] s
  /\ identifyGaps clock s
       (mkParams (Some [VNull]) e (Some (mkConfig threshold ks cap)) src)
     = Throws TypeError.
Proof. split; reflexivity. Qed.

(** C2.  With a cap [maxGapsPerExchange] of at least 1, identifyGaps always
    finishes, and the array it returns holds at most that many gaps. *)
Theorem C2_cap_respected clock s p cap gaps :
  maxGapsPerExchange (configOf p) = Some cap -> (1 <= cap)%Z ->
  returned (identifyGaps clock s p) = Some gaps ->
  identifyGaps clock s p <> Diverges /\ (Z.of_nat (length gaps) <= cap)%Z.
Proof.
  intros Hcap Hle H. split; [apply identifyGaps_finishes|].
  apply returned_Returns in H. destruct H as [s' H].
  apply identifyGaps_returns in H.
  destruct H as [->|(text & _ & E)]; [simpl; lia|].
  apply extractGapsFromText_cap in E. rewrite length_map in E.
  unfold maxGapsOf, or_int in E. rewrite Hcap in E.
  destruct (Z.eqb_spec cap 0); lia.
Qed.

Lemma C2_cap_respected_witness :
  identifyGaps clock1 fresh
    (exchange [user cascades_here; user cascades] (8 # 10) (Some 1%Z))
    <> Diverges /\
  (Z.of_nat (length [wrap clock1 None cascades_text (8 # 10) 0 cascades_here]) <= 1)%Z.
Proof.
  apply (@C2_cap_respected clock1 fresh
           (exchange [user cascades_here; user cascades] (8 # 10) (Some 1%Z)) 1%Z).
  - reflexivity.
  - lia.
  - vm_compute. reflexivity.
Defined.

(** C3.  No two gaps of one returned array have the same normalized form
    (lower case, every run of white space collapsed to one space). *)
Theorem C3_dedup clock s p gaps i j g1 g2 :
  returned (identifyGaps clock s p) = Some gaps ->
  i <> j -> nth_error gaps i = Some g1 -> nth_error gaps j = Some g2 ->
  normalize (Gap.question g1) <> normalize (Gap.question g2).
Proof.
  intros H Hij H1 H2 Heq.
  apply returned_Returns in H. destruct H as [s' H].
  apply identifyGaps_returns in H.
  destruct H as [->|(text & _ & E)]; [now destruct i|].
  apply extractGapsFromText_distinct in E. rewrite map_map in E.
  apply Hij.
  apply (proj1 (NoDup_nth_error _) E).
  - rewrite length_map. apply nth_error_Some. congruence.
  - rewrite !nth_error_map, H1, H2. simpl. now rewrite Heq.
Qed.

Lemma C3_dedup_witness : normalize cascades_here <> normalize cascades.
Proof.
  apply (@C3_dedup clock1 fresh
           (exchange [user cascades_here; user cascades] (8 # 10) (Some 2%Z))
           [wrap clock1 None cascades_text (8 # 10) 0 cascades_here;
            wrap clock1 None cascades_text (8 # 10) 1 cascades]
           0 1
           (wrap clock1 None cascades_text (8 # 10) 0 cascades_here)
           (wrap clock1 None cascades_text (8 # 10) 1 cascades)).
  - vm_compute. reflexivity.
  - discriminate.
  - reflexivity.
  - reflexivity.
Defined.

(** C4 (as stated, refuted).  With [maxGapsPerExchange] 0, and with -1, the
    tidal question is still returned. *)
Lemma C4_counterexample :
  questions (identifyGaps clock1 fresh (exchange [user tidal] (8 # 10) (Some 0%Z)))
    = Some [tidal] /\
  questions (identifyGaps clock1 fresh (exchange [user tidal] (8 # 10) (Some (-1)%Z)))
    = Some [tidal] /\
  Some [tidal] <> Some (@nil (list ascii)).
Proof.
  split; [vm_compute; reflexivity|].
  split; [vm_compute; reflexivity|discriminate].
Qed.

(** C4 (amended).  A cap of 0 counts as absent, so the default cap 2
    applies and at most two gaps are returned; under a negative cap the
    function returns right after the first gap it pushes, so at most one gap
    is returned. *)
Theorem C4_nonpositive_cap clock s p cap gaps :
  maxGapsPerExchange (configOf p) = Some cap -> (cap <= 0)%Z ->
  returned (identifyGaps clock s p) = Some gaps ->
  maxGapsOf p = (if Z.eqb cap 0 then 2 else cap)%Z /\
  length gaps <= (if Z.eqb cap 0 then 2 else 1).
Proof.
  intros Hcap Hle H.
  apply returned_Returns in H. destruct H as [s' H].
  apply identifyGaps_returns in H.
  assert (M : maxGapsOf p = if Z.eqb cap 0 then 2%Z else cap).
  { unfold maxGapsOf, or_int. now rewrite Hcap. }
  split; [exact M|].
  destruct H as [->|(text & _ & E)].
  - simpl. destruct (Z.eqb cap 0); lia.
  - apply extractGapsFromText_cap in E. rewrite length_map, M in E.
    destruct (Z.eqb_spec cap 0); lia.
Qed.

Lemma C4_nonpositive_cap_witness :
  maxGapsOf (exchange [user tidal] (8 # 10) (Some (-3)%Z)) = (-3)%Z /\
  length [wrap clock1 None tidal (8 # 10) 0 tidal] <= 1.
Proof.
  apply (@C4_nonpositive_cap clock1 fresh
           (exchange [user tidal] (8 # 10) (Some (-3)%Z)) (-3)%Z
           [wrap clock1 None tidal (8 # 10) 0 tidal]).
  - reflexivity.
  - lia.
  - vm_compute. reflexivity.
Defined.




(** C6 (the code at the failing input).  [normalizeText] answers the empty
    string on a [null] message, but identifyGaps reads [msg.role] before it
    calls [normalizeText]: a [null] entry among the last six messages makes
    the call throw a TypeError. *)
Theorem C6_null_entry_throws clock s earlier later e cfg src :
  length later < 6 ->
  normalizeText VNull = Normal [] /\
  identifyGaps clock s (mkParams (Some (earlier ++ VNull :: later)) e cfg src)
  = Throws TypeError.
Proof.
  intros H. split; [reflexivity|].
  unfold identifyGaps.
  change (messages (mkParams (Some (earlier ++ VNull :: later)) e cfg src))
    with (Some (earlier ++ VNull :: later)).
  unfold conversationText.
  now rewrite (conversationParts_null _ (sliceLast_keeps earlier later VNull H)).
Qed.

Lemma C6_null_entry_throws_witness :
  normalizeText VNull = Normal [] /\
  identifyGaps clock1 fresh (exchange ([user tidal] ++ VNull :: []) (8 # 10) None)
  = Throws TypeError.
Proof.
  apply (@C6_null_entry_throws clock1 fresh [user tidal] []
           (Some (8 # 10)%Q) (Some (mkConfig (Some (1 # 2)%Q) None None)) None).
  simpl. lia.
Defined.

(** C7 (as stated, refuted).  The same call made at two clock readings
    returns records with different [id] and [source]. *)
Lemma C7_counterexample :
  returned (identifyGaps clock1 fresh (exchange [user tidal] (8 # 10) None))
  <> returned (identifyGaps clock2 fresh (exchange [user tidal] (8 # 10) None)).
Proof. vm_compute. discriminate. Qed.

(** C7 (amended).  Two runs on the same arguments agree, whatever the clock
    reads and whatever state the RegExp objects were left in, on whether the
    call throws and on the question, context and entropy of every gap; when
    the clock reads the same, the whole records agree. *)
Theorem C7_idempotent_up_to_clock clockA clockB sA sB p :
  timeless (identifyGaps clockA sA p) = timeless (identifyGaps clockB sB p) /\
  questions (identifyGaps clockA sA p) = questions (identifyGaps clockB sB p) /\
  returned (identifyGaps clockA sA p) = returned (identifyGaps clockA sB p).
Proof.
  split; [apply identifyGaps_timeless|].
  split; [apply timeless_questions, identifyGaps_timeless|].
  apply identifyGaps_returned_state.
Qed.

(** C8 (as stated, refuted).  Both sentences are returned: their normalized
    forms differ, so neither is a duplicate of the other. *)
Lemma C8_counterexample :
  questions (identifyGaps clock1 fresh
               (exchange [user cascades_here; user cascades] (8 # 10) (Some 2%Z)))
    = Some [cascades_here; cascades] /\
  length [cascades_here; cascades] <> 1.
Proof. split; [vm_compute; reflexivity|discriminate]. Qed.

(** C8 (amended).  For the two messages, once the gate is passed and under
    every cap of at least 2, the output is the two sentences, in order. *)
Theorem C8_both_sentences_kept clock s e threshold ks cap src :
  let p := mkParams (Some [user cascades_here; user cascades]) e
             (Some (mkConfig threshold ks (Some cap))) src in
  (2 <= cap)%Z ->
  (thresholdOf p <= entropyOf p)%Q \/ keywordHit (keywordsOf p) cascades_text = true ->
  questions (identifyGaps clock s p) = Some [cascades_here; cascades].
Proof.
  intros p Hcap Hgate.
  assert (T : conversationText (messages p) = Normal cascades_text)
    by (vm_compute; reflexivity).
  assert (N : cascades_text <> []) by (vm_compute; discriminate).
  rewrite (@identifyGaps_nonempty clock s p cascades_text T N).
  assert (G : (Qltb (entropyOf p) (thresholdOf p)
               && negb (keywordHit (keywordsOf p) cascades_text))%bool = false).
  { destruct Hgate as [H|H].
    - now rewrite (Qltb_false H).
    - rewrite H. apply andb_false_r. }
  assert (M : maxGapsOf p = cap).
  { unfold maxGapsOf, or_int, p. simpl. destruct (Z.eqb_spec cap 0); [lia|reflexivity]. }
  rewrite G, M.
  assert (Q : option_map fst (extractGapsFromText cascades_text cap s)
              = Some [cascades_here; cascades]).
  { destruct (Z.eq_dec cap 2) as [->|Hne].
    - rewrite (extractGapsFromText_state cascades_text 2 s fresh).
      vm_compute. reflexivity.
    - apply questions_raise with (c1 := 3%Z) (s0 := fresh);
        [lia|vm_compute; reflexivity|simpl; lia]. }
  destruct (extractGapsFromText cascades_text cap s) as [[qs s']|];
    [|discriminate Q].
  cbn [option_map fst] in Q. injection Q as ->.
  cbn [questions]. now rewrite questions_mapi.
Qed.

Lemma C8_both_sentences_kept_witness :
  questions (identifyGaps clock1 fresh
               (mkParams (Some [user cascades_here; user cascades]) (Some (8 # 10)%Q)
                  (Some (mkConfig (Some (1 # 2)%Q) None (Some 5%Z))) None))
  = Some [cascades_here; cascades].
Proof.
  apply (@C8_both_sentences_kept clock1 fresh (Some (8 # 10)%Q) (Some (1 # 2)%Q)
           None 5%Z None).
  - lia.
  - left. vm_compute. discriminate.
Defined.

(** C9.  The tidal message alone, entropy 0.8 against the threshold 0.5 and
    everything else by default: exactly one gap, the sentence itself, which
    begins with "I wonder how the tidal patterns". *)
Theorem C9_tidal_scenario clock s src :
  questions
    (identifyGaps clock s
       (mkParams (Some [user tidal]) (Some (8 # 10)%Q)
          (Some (mkConfig (Some (1 # 2)%Q) None None)) src))
  = Some [tidal]
  /\ Str.startsWith tidal (str "I wonder how the tidal patterns") = true.
Proof. split; vm_compute; reflexivity. Qed.

(** C10.  Two message lists with the same last six entries give the same
    gap strings (and throw alike), for the same entropy and configuration,
    whatever comes before those six. *)
Theorem C10_last_six_only clockA clockB sA sB earlierA earlierB tail e cfg src :
  length tail = 6 ->
  questions (identifyGaps clockA sA (mkParams (Some (earlierA ++ tail)) e cfg src))
  = questions (identifyGaps clockB sB (mkParams (Some (earlierB ++ tail)) e cfg src))
  /\ timeless (identifyGaps clockA sA (mkParams (Some (earlierA ++ tail)) e cfg src))
     = timeless (identifyGaps clockB sB (mkParams (Some (earlierB ++ tail)) e cfg src)).
Proof.
  intros H.
  assert (W : forall clock s earlier,
            identifyGaps clock s (mkParams (Some (earlier ++ tail)) e cfg src)
            = identifyGaps clock s (mkParams (Some tail) e cfg src)).
  { intros clock s earlier. unfold identifyGaps.
    change (messages (mkParams (Some (earlier ++ tail)) e cfg src))
      with (Some (earlier ++ tail)).
    now rewrite (conversationText_window earlier tail H). }
  rewrite (W clockA sA earlierA), (W clockB sB earlierB).
  split; [apply timeless_questions|]; apply identifyGaps_timeless.
Qed.

Lemma C10_last_six_only_witness :
  questions (identifyGaps clock1 fresh
               (mkParams (Some ([user cascades_here] ++ window)) (Some (8 # 10)%Q) None None))
  = questions (identifyGaps clock2 fresh
                 (mkParams (Some ([VNull; user cascades] ++ window)) (Some (8 # 10)%Q) None None))
  /\ timeless (identifyGaps clock1 fresh
                 (mkParams (Some ([user cascades_here] ++ window)) (Some (8 # 10)%Q) None None))
     = timeless (identifyGaps clock2 fresh
                   (mkParams (Some ([VNull; user cascades] ++ window)) (Some (8 # 10)%Q) None None)).
Proof.
  apply (@C10_last_six_only clock1 clock2 fresh fresh [user cascades_here]
           [VNull; user cascades] window (Some (8 # 10)%Q) None None).
  reflexivity.
Defined.

(** * Further properties *)

(** ** What every candidate has, every gap has *)

Module CandidateFacts.

Section Candidates.

Variable text : list ascii.
Variable maxCount : Z.
Variable P : list ascii -> Prop.

(** What pass 1 lets through to [record]. *)
Hypothesis pass1_candidate : forall re lastIndex match0 lastIndex',
  In re GAP_PATTERNS ->
  exec re text lastIndex = Some (match0, lastIndex') ->
  (length (Str.trim match0) <? 15) = false ->
  existsb (fun f => test f (Str.trim match0)) FILTER_PATTERNS = false ->
  P (Str.trim match0).

Lemma record_all gap gaps seen :
  P gap -> Forall P gaps ->
  match record maxCount gap gaps seen with
  | Return gaps' => Forall P gaps'
  | Continue gaps' _ => Forall P gaps'
  end.
Proof.
  intros Hg Hall. unfold record. destruct (has seen (normalize gap)); [exact Hall|].
  cbv zeta.
  assert (Forall P (gaps ++ [gap])) by (apply Forall_app; split; auto).
  destruct (Z.of_nat (length (gaps ++ [gap])) >=? maxCount)%Z; assumption.
Qed.

Lemma while_exec_all re :
  In re GAP_PATTERNS ->
  forall fuel lastIndex gaps seen f lastIndex',
    Forall P gaps ->
    while_exec fuel re text maxCount lastIndex gaps seen = Some (f, lastIndex') ->
    flow_all P f.
Proof.
  intros Hre.
  induction fuel as [|fuel IH]; intros lastIndex gaps seen f lastIndex' Hall H;
    cbn [while_exec] in H; [discriminate|].
  destruct (exec re text lastIndex) as [[match0 li]|] eqn:E.
  - destruct (length (Str.trim match0) <? 15) eqn:L; [eapply IH; eauto|].
    destruct (existsb _ FILTER_PATTERNS) eqn:F; [eapply IH; eauto|].
    pose proof (@record_all (Str.trim match0) gaps seen
                  (@pass1_candidate re lastIndex match0 li Hre E L F) Hall) as K.
    destruct (record maxCount (Str.trim match0) gaps seen) as [g|g sn].
    + injection H as <- _. exact K.
    + eapply IH; eauto.
  - injection H as <- _. exact Hall.
Qed.

Lemma pass1_all :
  forall patterns i s gaps seen f s',
    incl patterns GAP_PATTERNS ->
    Forall P gaps ->
    pass1 patterns i text maxCount s gaps seen = Some (f, s') ->
    flow_all P f.
Proof.
  induction patterns as [|re patterns IH]; intros i s gaps seen f s' Hin Hall H;
    cbn [pass1] in H.
  - injection H as <- _. exact Hall.
  - destruct (while_exec _ re text maxCount _ gaps seen) as [[f1 li]|] eqn:W;
      [|discriminate].
    pose proof (@while_exec_all re (Hin re (or_introl eq_refl)) _ _ _ _ _ _ Hall W)
      as K.
    destruct f1 as [g|g sn].
    + injection H as <- _. exact K.
    + eapply IH; [|exact K|exact H]. intros r Hr. apply Hin. now right.
Qed.

(** What pass 2 lets through to [record]. *)
Lemma pass2_all sentences :
  (forall sentence, In sentence sentences ->
     Str.endsWith (Str.trim sentence) (str "?") = true ->
     (length (Str.trim sentence) <? 30) = false ->
     existsb (fun f => test f (Str.trim sentence)) FILTER_PATTERNS = false ->
     existsb (fun f => test f (Str.trim sentence)) DOCUMENT_NOISE_PATTERNS = false ->
     (test WH_VERB (Str.trim sentence) || test PRONOUN_VERB (Str.trim sentence))%bool
     = true ->
     P (Str.trim sentence)) ->
  forall gaps seen, Forall P gaps -> Forall P (pass2 sentences maxCount gaps seen).
Proof.
  induction sentences as [|sentence sentences IH]; intros Hc gaps seen Hall;
    cbn [pass2]; [exact Hall|].
  assert (Hc' : forall s0, In s0 sentences ->
     Str.endsWith (Str.trim s0) (str "?") = true ->
     (length (Str.trim s0) <? 30) = false ->
     existsb (fun f => test f (Str.trim s0)) FILTER_PATTERNS = false ->
     existsb (fun f => test f (Str.trim s0)) DOCUMENT_NOISE_PATTERNS = false ->
     (test WH_VERB (Str.trim s0) || test PRONOUN_VERB (Str.trim s0))%bool = true ->
     P (Str.trim s0)) by (intros s0 Hs0; apply Hc; now right).
  destruct (Str.endsWith _ _) eqn:Q; cbn [negb]; [|now apply IH].
  destruct (length _ <? 30) eqn:L; [now apply IH|].
  destruct (existsb _ FILTER_PATTERNS) eqn:F; [now apply IH|].
  destruct (existsb _ DOCUMENT_NOISE_PATTERNS) eqn:D; [now apply IH|].
  destruct (negb (test WH_VERB _) && negb (test PRONOUN_VERB _))%bool eqn:V;
    [now apply IH|].
  assert (V' : (test WH_VERB (Str.trim sentence)
                || test PRONOUN_VERB (Str.trim sentence))%bool = true).
  { rewrite <- negb_orb in V. now apply negb_false_iff in V. }
  pose proof (@record_all (Str.trim sentence) gaps seen
                (Hc sentence (or_introl eq_refl) Q L F D V') Hall) as K.
  destruct (record maxCount (Str.trim sentence) gaps seen) as [g|g sn];
    [exact K|now apply IH].
Qed.

Hypothesis pass2_candidate : forall sentence,
  In sentence (split SENTENCE_BREAK text) ->
  Str.endsWith (Str.trim sentence) (str "?") = true ->
  (length (Str.trim sentence) <? 30) = false ->
  existsb (fun f => test f (Str.trim sentence)) FILTER_PATTERNS = false ->
  existsb (fun f => test f (Str.trim sentence)) DOCUMENT_NOISE_PATTERNS = false ->
  (test WH_VERB (Str.trim sentence) || test PRONOUN_VERB (Str.trim sentence))%bool
  = true ->
  P (Str.trim sentence).

Lemma extractGapsFromText_all s gaps s' :
  extractGapsFromText text maxCount s = Some (gaps, s') -> Forall P gaps.
Proof.
  unfold extractGapsFromText. intros H.
  destruct (pass1 GAP_PATTERNS 0 text maxCount s [] []) as [[f s1]|] eqn:E;
    [|discriminate].
  pose proof (@pass1_all _ _ _ _ _ _ _ (incl_refl _) (Forall_nil P) E) as K.
  destruct f as [g|g sn]; injection H as <- _; [exact K|].
  now apply pass2_all.
Qed.

End Candidates.

End CandidateFacts.

(** ** Excerpts, trimming *)

Module ExcerptFacts.

Lemma occurs_refl (s : list ascii) : occurs s s.
Proof. exists [], []. now rewrite app_nil_r. Qed.

Lemma occurs_trans (a b c : list ascii) : occurs a b -> occurs b c -> occurs a c.
Proof.
  intros (p1 & q1 & ->) (p2 & q2 & ->). exists (p2 ++ p1), (q1 ++ q2).
  now rewrite <- !app_assoc.
Qed.

Lemma dropWhile_suffix f (s : list ascii) :
  exists pre, s = pre ++ Str.dropWhile f s /\ forallb f pre = true.
Proof.
  induction s as [|c s (pre & E & F)]; simpl.
  - now exists [].
  - destruct (f c) eqn:Hc.
    + exists (c :: pre). simpl. rewrite Hc, F. split; [now f_equal|reflexivity].
    + now exists [].
Qed.

Lemma dropWhile_fixed f (s : list ascii) :
  Str.dropWhile f s = s <->
  match s with [] => True | c :: _ => f c = false end.
Proof.
  destruct s as [|c s]; simpl; [tauto|].
  destruct (f c) eqn:Hc; split; intros H; try reflexivity; try discriminate.
  exfalso. destruct (dropWhile_suffix f s) as (pre & E & _).
  apply (f_equal (@length ascii)) in H. rewrite E in H at 2.
  simpl in H. rewrite length_app in H. lia.
Qed.

Lemma dropWhile_head f (s : list ascii) :
  match Str.dropWhile f s with [] => True | c :: _ => f c = false end.
Proof.
  induction s as [|c s IH]; simpl; [exact I|].
  destruct (f c) eqn:Hc; [exact IH|exact Hc].
Qed.

Lemma dropWhile_idem f (s : list ascii) :
  Str.dropWhile f (Str.dropWhile f s) = Str.dropWhile f s.
Proof. apply dropWhile_fixed, dropWhile_head. Qed.

(** [trim] takes white space off both ends and nothing else. *)
Lemma trim_spec (s : list ascii) :
  exists pre post,
    s = pre ++ Str.trim s ++ post /\
    forallb Char.isSpace pre = true /\ forallb Char.isSpace post = true.
Proof.
  unfold Str.trim.
  destruct (dropWhile_suffix Char.isSpace s) as (pre & E1 & F1).
  destruct (dropWhile_suffix Char.isSpace (rev (Str.dropWhile Char.isSpace s)))
    as (post & E2 & F2).
  exists pre, (rev post). repeat split; [|exact F1|].
  - rewrite E1 at 1. f_equal.
    rewrite <- (rev_involutive (Str.dropWhile Char.isSpace s)) at 1.
    rewrite E2 at 1. now rewrite rev_app_distr.
  - rewrite forallb_forall in *. intros x Hx. apply F2. now apply in_rev.
Qed.

Lemma trim_occurs (s : list ascii) : occurs (Str.trim s) s.
Proof. destruct (trim_spec s) as (pre & post & E & _). now exists pre, post. Qed.

(** The ends of a trimmed string are not white space. *)
Lemma trim_head (s : list ascii) :
  match Str.trim s with [] => True | c :: _ => Char.isSpace c = false end.
Proof.
  unfold Str.trim.
  pose proof (dropWhile_head Char.isSpace s) as H1.
  destruct (dropWhile_suffix Char.isSpace (rev (Str.dropWhile Char.isSpace s)))
    as (post & E & _).
  remember (Str.dropWhile Char.isSpace (rev (Str.dropWhile Char.isSpace s))) as e.
  apply (f_equal (@rev ascii)) in E. rewrite rev_involutive, rev_app_distr in E.
  destruct (rev e) as [|c r] eqn:R; [exact I|].
  rewrite E in H1. exact H1.
Qed.

Lemma trim_last (s : list ascii) :
  match rev (Str.trim s) with [] => True | c :: _ => Char.isSpace c = false end.
Proof. unfold Str.trim. rewrite rev_involutive. apply dropWhile_head. Qed.

Lemma trim_fixed (s : list ascii) :
  match s with [] => True | c :: _ => Char.isSpace c = false end ->
  match rev s with [] => True | c :: _ => Char.isSpace c = false end ->
  Str.trim s = s.
Proof.
  intros H1 H2. unfold Str.trim.
  rewrite (proj2 (dropWhile_fixed Char.isSpace s) H1).
  rewrite (proj2 (dropWhile_fixed Char.isSpace (rev s)) H2).
  apply rev_involutive.
Qed.

Lemma trim_idem (s : list ascii) : Str.trim (Str.trim s) = Str.trim s.
Proof. apply trim_fixed; [apply trim_head|apply trim_last]. Qed.

(** What [exec] returns is a piece of the text. *)
Lemma exec_excerpt re text lastIndex match0 lastIndex' :
  exec re text lastIndex = Some (match0, lastIndex') -> occurs match0 text.
Proof.
  unfold exec. destruct (length text <? lastIndex); [discriminate|].
  destruct (search re _ _) as [[p q]|] eqn:S; [|discriminate].
  intros H. injection H as <- _.
  apply search_advances in S. destruct S as [S1 S2].
  pose proof (advances_subject S1) as J1.
  cbn [fst snd] in J1. rewrite at_index_subject in J1.
  destruct S2 as (m & A & B & _).
  unfold matched, index. rewrite B, length_app, length_rev.
  replace (length m + length (fst p) - length (fst p)) with (length m) by lia.
  rewrite A, firstn_app, Nat.sub_diag, firstn_all. cbn [firstn]. rewrite app_nil_r.
  exists (rev (fst p)), (snd q). now rewrite <- J1, A.
Qed.

(** The pieces [split] returns are pieces of the text. *)
Lemma split_from_excerpts re rest :
  forall before cur skip piece,
    (skip = 0 -> exists pre, rev before = pre ++ rev cur) ->
    (0 < skip -> cur = []) ->
    In piece (split_from re before rest cur skip) ->
    occurs piece (rev before ++ rest).
Proof.
  induction rest as [|c rest IH]; intros before cur skip piece H0 H1 Hin.
  - cbn [split_from] in Hin. destruct Hin as [<-|[]]. rewrite app_nil_r.
    destruct skip.
    + destruct (H0 eq_refl) as (pre & E). exists pre, []. now rewrite app_nil_r.
    + rewrite (H1 ltac:(lia)). exists (rev before), []. cbn. now rewrite app_nil_r.
  - assert (T : rev (c :: before) ++ rest = rev before ++ c :: rest)
      by (cbn [rev]; now rewrite <- app_assoc).
    assert (Hcur : skip = 0 -> occurs (rev cur) (rev before ++ c :: rest)).
    { intros Hs. destruct (H0 Hs) as (pre & E). exists pre, (c :: rest).
      now rewrite E, <- app_assoc. }
    assert (Hnext : forall cur', (exists pre, rev (c :: before) = pre ++ rev cur') ->
              forall piece', In piece' (split_from re (c :: before) rest cur' 0) ->
              occurs piece' (rev before ++ c :: rest)).
    { intros cur' Hp piece' Hin'. rewrite <- T. eapply IH; eauto. lia. }
    cbn [split_from] in Hin. destruct skip as [|n].
    + destruct (match_at re (before, c :: rest)) as [q|].
      * destruct (index q - length before) as [|n].
        -- destruct cur as [|x cur].
           ++ apply (Hnext [c]); [|exact Hin]. exists (rev before). reflexivity.
           ++ destruct Hin as [<-|Hin]; [now apply Hcur|].
              apply (Hnext [c]); [|exact Hin]. exists (rev before). reflexivity.
        -- destruct Hin as [<-|Hin]; [now apply Hcur|].
           rewrite <- T. eapply IH; [| |exact Hin].
           ++ intros _. exists (rev (c :: before)). now rewrite app_nil_r.
           ++ reflexivity.
      * apply (Hnext (c :: cur)); [|exact Hin].
        destruct (H0 eq_refl) as (pre & E). exists pre.
        cbn [rev]. now rewrite E, <- app_assoc.
    + rewrite <- T. eapply IH; [| |exact Hin].
      * intros _. rewrite (H1 ltac:(lia)). exists (rev (c :: before)).
        now rewrite app_nil_r.
      * intros _. apply H1. lia.
Qed.

Lemma split_excerpts re text piece :
  In piece (split re text) -> occurs piece text.
Proof.
  unfold split. destruct text as [|c text].
  - destruct (match_at re ([], [])); intros H; [contradiction|].
    destruct H as [<-|[]]. apply occurs_refl.
  - intros H. apply (@split_from_excerpts re (c :: text) [] [] 0 piece) in H;
      [exact H| |lia].
    intros _. now exists [].
Qed.

End ExcerptFacts.

(** ** The conversational filter, opener by opener *)

Module FilterFacts.
Import CandidateFacts ExcerptFacts.

Lemma alts_lits_fail ws : forall p,
  rmatch true (alts (map lit_chars ws)) p = [] ->
  forall w, In w ws -> ci_prefix true w (snd p) = false.
Proof.
  induction ws as [|w0 ws IH]; intros [b t] H w Hin; [contradiction|].
  assert (Hw0 : rmatch true (lit_chars w0) (b, t) = [] ->
                ci_prefix true w0 t = false).
  { rewrite rmatch_lit_chars. destruct (ci_prefix true w0 t); [discriminate|reflexivity]. }
  destruct ws as [|w1 ws].
  - destruct Hin as [<-|[]]. now apply Hw0.
  - change (alts (map lit_chars (w0 :: w1 :: ws)))
      with (Alt (lit_chars w0) (alts (map lit_chars (w1 :: ws)))) in H.
    cbn [rmatch] in H. apply app_eq_nil in H. destruct H as [Ha Hb].
    destruct Hin as [<-|Hin]; [now apply Hw0|].
    apply (IH (b, t) Hb w Hin).
Qed.

(** A pattern [/^(?:a|b|...)/i] that does not match: none of its
    alternatives is a prefix, in any letter case. *)
Lemma opener_test_false ws gap :
  test (i_ (Seq Bol (words ws))) gap = false ->
  forall w, In w (Str.splitOn "|" (str ws)) -> ci_prefix true w gap = false.
Proof.
  unfold test. rewrite search_eq.
  destruct (match_at _ _) as [q|] eqn:M; [discriminate|]. intros _.
  unfold match_at in M. cbn [ignoreCase pattern i_ rmatch fst flat_map] in M.
  rewrite app_nil_r in M. unfold words in M.
  destruct (rmatch true (alts (map lit_chars (Str.splitOn "|" (str ws)))) ([], gap))
    eqn:R; [|discriminate].
  intros w Hw. apply (alts_lits_fail _ _ R w Hw).
Qed.

Lemma filter_false_openers gap :
  existsb (fun f => test f gap) FILTER_PATTERNS = false ->
  forall w, In w CONVERSATIONAL_OPENERS -> ci_prefix true w gap = false.
Proof.
  intros H w Hw.
  unfold FILTER_PATTERNS in H. cbn [existsb] in H.
  repeat (apply orb_false_iff in H; destruct H as [? H]).
  unfold CONVERSATIONAL_OPENERS in Hw. cbn [map In] in Hw.
  repeat match goal with
         | Hw : _ \/ _ |- _ => destruct Hw as [<-|Hw]
         end;
    try contradiction;
    match goal with
    | T : test (i_ (Seq Bol (words ?ws))) gap = false |- ci_prefix true ?w gap = false =>
        let b := eval vm_compute in
          (existsb (fun x => if list_eq_dec ascii_dec x w then true else false)
             (Str.splitOn "|" (str ws))) in
        match b with
        | true => apply (@opener_test_false ws gap T); vm_compute; tauto
        end
    end.
Qed.

End FilterFacts.

(** ** What every gap is *)

Import CandidateFacts ExcerptFacts FilterFacts.

(** X1.  Every gap identifyGaps returns is an excerpt of the conversation
    text: its question occurs there, character for character. *)
Theorem X1_gaps_are_excerpts clock s p corpus gaps :
  conversationText (messages p) = Normal corpus ->
  returned (identifyGaps clock s p) = Some gaps ->
  Forall (fun g => occurs (Gap.question g) corpus) gaps.
Proof.
  intros Hc H. apply returned_Returns in H. destruct H as [s' H].
  apply identifyGaps_returns in H. destruct H as [->|(text & T & E)]; [constructor|].
  rewrite Hc in T. injection T as <-.
  apply (@extractGapsFromText_all corpus (maxGapsOf p) (fun g => occurs g corpus))
    in E.
  - exact (proj1 (Forall_map _ _ _) E).
  - intros re li m li' _ X _ _. eapply occurs_trans; [apply trim_occurs|].
    exact (@exec_excerpt re corpus li m li' X).
  - intros sentence Hin _ _ _ _ _. eapply occurs_trans; [apply trim_occurs|].
    exact (@split_excerpts SENTENCE_BREAK corpus sentence Hin).
Qed.

Lemma X1_gaps_are_excerpts_witness :
  Forall (fun g => occurs (Gap.question g) cascades_text)
    [wrap clock1 None cascades_text (8 # 10) 0 cascades_here;
     wrap clock1 None cascades_text (8 # 10) 1 cascades].
Proof.
  apply (@X1_gaps_are_excerpts clock1 fresh
           (exchange [user cascades_here; user cascades] (8 # 10) (Some 2%Z))).
  - vm_compute. reflexivity.
  - vm_compute. reflexivity.
Defined.

(** X2.  Every gap returned has at least 15 code units and neither starts
    nor ends with white space. *)
Theorem X2_gaps_are_trimmed_and_long clock s p gaps :
  returned (identifyGaps clock s p) = Some gaps ->
  Forall (fun g => 15 <= length (Gap.question g)
                   /\ Str.trim (Gap.question g) = Gap.question g) gaps.
Proof.
  intros H. apply returned_Returns in H. destruct H as [s' H].
  apply identifyGaps_returns in H. destruct H as [->|(text & T & E)]; [constructor|].
  apply (@extractGapsFromText_all text (maxGapsOf p)
           (fun g => 15 <= length g /\ Str.trim g = g)) in E.
  - exact (proj1 (Forall_map _ _ _) E).
  - intros re li m li' _ _ L _. apply Nat.ltb_ge in L. split; [exact L|apply trim_idem].
  - intros sentence _ _ L _ _ _. apply Nat.ltb_ge in L. split; [lia|apply trim_idem].
Qed.

Lemma X2_gaps_are_trimmed_and_long_witness :
  Forall (fun g => 15 <= length (Gap.question g)
                   /\ Str.trim (Gap.question g) = Gap.question g)
    [wrap clock1 None tidal (8 # 10) 0 tidal].
Proof.
  apply (@X2_gaps_are_trimmed_and_long clock1 fresh
           (exchange [user tidal] (8 # 10) None)).
  vm_compute. reflexivity.
Defined.

(** X3.  No gap returned begins, in any letter case, with one of the
    conversational openers of [FILTER_PATTERNS] ("would you", "is that",
    "okay", "those", "isn't it", "who doesn't", "sound familiar", ...). *)
Theorem X3_no_conversational_opener clock s p gaps :
  returned (identifyGaps clock s p) = Some gaps ->
  Forall (fun g => forall w, In w CONVERSATIONAL_OPENERS ->
                     ci_prefix true w (Gap.question g) = false) gaps.
Proof.
  intros H. apply returned_Returns in H. destruct H as [s' H].
  apply identifyGaps_returns in H. destruct H as [->|(text & T & E)]; [constructor|].
  apply (@extractGapsFromText_all text (maxGapsOf p)
           (fun g => forall w, In w CONVERSATIONAL_OPENERS ->
                       ci_prefix true w g = false)) in E.
  - exact (proj1 (Forall_map _ _ _) E).
  - intros re li m li' _ _ _ F. now apply filter_false_openers.
  - intros sentence _ _ _ F _ _. now apply filter_false_openers.
Qed.

Lemma X3_no_conversational_opener_witness :
  Forall (fun g => forall w, In w CONVERSATIONAL_OPENERS ->
                     ci_prefix true w (Gap.question g) = false)
    [wrap clock1 None tidal (8 # 10) 0 tidal].
Proof.
  apply (@X3_no_conversational_opener clock1 fresh
           (exchange [user tidal] (8 # 10) None)).
  vm_compute. reflexivity.
Defined.

(** ** Raising the cap only adds gaps *)

Module CapFacts.

Lemma grows_refl g : grows g g.
Proof. exists []. now rewrite app_nil_r. Qed.

Lemma grows_trans g1 g2 g3 : grows g1 g2 -> grows g2 g3 -> grows g1 g3.
Proof. intros [m1 ->] [m2 ->]. exists (m1 ++ m2). now rewrite app_assoc. Qed.

Lemma grows_firstn g1 g2 : grows g1 g2 -> firstn (length g1) g2 = g1.
Proof.
  intros [m ->]. rewrite firstn_app, Nat.sub_diag, firstn_all. cbn.
  now rewrite app_nil_r.
Qed.

(** A loop body only pushes. *)
Lemma record_grows c g0 gap gaps seen :
  grows g0 gaps -> grows g0 (gaps_of (record c gap gaps seen)).
Proof.
  intros H. unfold record. destruct (has seen (normalize gap)); [exact H|].
  cbv zeta.
  assert (grows g0 (gaps ++ [gap])) by (eapply grows_trans; [exact H|now exists [gap]]).
  destruct (Z.of_nat (length (gaps ++ [gap])) >=? c)%Z; assumption.
Qed.

Lemma record_keeps_grows c g0 gap gaps seen :
  grows g0 gaps ->
  match record c gap gaps seen with
  | Return gaps' => grows g0 gaps'
  | Continue gaps' _ => grows g0 gaps'
  end.
Proof.
  intros H. pose proof (@record_grows c g0 gap gaps seen H) as K.
  destruct (record c gap gaps seen); exact K.
Qed.

Lemma while_exec_grows c re text fuel lastIndex gaps seen f lastIndex' :
  while_exec fuel re text c lastIndex gaps seen = Some (f, lastIndex') ->
  grows gaps (gaps_of f).
Proof.
  intros H.
  apply (@while_exec_keeps c (fun g _ => grows gaps g) (grows gaps)) in H.
  - destruct f; exact H.
  - intros. now apply record_keeps_grows.
  - apply grows_refl.
Qed.

Lemma pass1_grows c text patterns i s gaps seen f s' :
  pass1 patterns i text c s gaps seen = Some (f, s') ->
  grows gaps (gaps_of f).
Proof.
  intros H.
  apply (@pass1_keeps c (fun g _ => grows gaps g) (grows gaps)) in H.
  - destruct f; exact H.
  - intros. now apply record_keeps_grows.
  - apply grows_refl.
Qed.

Lemma pass2_grows c sentences gaps seen :
  grows gaps (pass2 sentences c gaps seen).
Proof.
  apply (@pass2_keeps c (fun g _ => grows gaps g) (grows gaps)).
  - intros. now apply record_keeps_grows.
  - auto.
  - apply grows_refl.
Qed.

Section TwoCaps.

Variables c1 c2 : Z.
Hypothesis c1_le_c2 : (c1 <= c2)%Z.

Lemma record_in_step gap gaps seen :
  (Z.of_nat (length gaps) < c1)%Z ->
  in_step c1 (record c1 gap gaps seen) (record c2 gap gaps seen).
Proof.
  intros Hlt. unfold record. destruct (has seen (normalize gap)); [reflexivity|].
  cbv zeta.
  assert (L : length (gaps ++ [gap]) = S (length gaps))
    by (rewrite length_app; simpl; lia).
  destruct (Z.of_nat (length (gaps ++ [gap])) >=? c1)%Z eqn:E1;
    destruct (Z.of_nat (length (gaps ++ [gap])) >=? c2)%Z eqn:E2;
    rewrite Z.geb_leb in E1, E2;
    try apply Z.leb_le in E1; try apply Z.leb_gt in E1;
    try apply Z.leb_le in E2; try apply Z.leb_gt in E2;
    cbn [in_step gaps_of].
  - split; [lia|apply grows_refl].
  - split; [lia|apply grows_refl].
  - lia.
  - reflexivity.
Qed.

(** A [Continue] under the smaller cap has not reached it. *)
Lemma record_continue_below gap gaps seen g sn :
  record c1 gap gaps seen = Continue g sn ->
  (Z.of_nat (length gaps) < c1)%Z ->
  (Z.of_nat (length g) < c1)%Z.
Proof.
  unfold record. destruct (has seen (normalize gap)).
  - intros H. injection H as <- _. auto.
  - cbv zeta. destruct (Z.of_nat (length (gaps ++ [gap])) >=? c1)%Z eqn:E;
      [discriminate|].
    intros H. injection H as <- _. intros _.
    rewrite Z.geb_leb in E. now apply Z.leb_gt in E.
Qed.

Lemma while_exec_in_step re text :
  forall fuel lastIndex gaps seen f1 l1 f2 l2,
    (Z.of_nat (length gaps) < c1)%Z ->
    while_exec fuel re text c1 lastIndex gaps seen = Some (f1, l1) ->
    while_exec fuel re text c2 lastIndex gaps seen = Some (f2, l2) ->
    in_step c1 f1 f2 /\ (forall g sn, f1 = Continue g sn ->
                           (Z.of_nat (length g) < c1)%Z /\ l1 = l2).
Proof.
  induction fuel as [|fuel IH]; intros lastIndex gaps seen f1 l1 f2 l2 Hlt H1 H2;
    cbn [while_exec] in H1, H2; [discriminate|].
  destruct (exec re text lastIndex) as [[match0 li]|].
  - destruct (length (Str.trim match0) <? 15); [eapply IH; eauto|].
    destruct (existsb _ FILTER_PATTERNS); [eapply IH; eauto|].
    pose proof (@record_in_step (Str.trim match0) gaps seen Hlt) as R.
    destruct (record c1 (Str.trim match0) gaps seen) as [g1|g1 sn1] eqn:R1.
    + injection H1 as <- <-. cbn [in_step] in R. destruct R as [Rl Rg].
      split; [|intros g sn X; discriminate X]. split; [exact Rl|].
      destruct (record c2 (Str.trim match0) gaps seen) as [g2|g2 sn2].
      * injection H2 as <- _. exact Rg.
      * apply while_exec_grows in H2. eapply grows_trans; eauto.
    + cbn [in_step] in R. rewrite R in H2.
      eapply IH; [|exact H1|exact H2].
      eapply record_continue_below; eauto.
  - injection H1 as <- <-. injection H2 as <- <-.
    split; [reflexivity|]. intros g sn X. injection X as <- _. auto.
Qed.

Lemma pass1_in_step text :
  forall patterns i s gaps seen f1 s1 f2 s2,
    (Z.of_nat (length gaps) < c1)%Z ->
    pass1 patterns i text c1 s gaps seen = Some (f1, s1) ->
    pass1 patterns i text c2 s gaps seen = Some (f2, s2) ->
    in_step c1 f1 f2 /\ (forall g sn, f1 = Continue g sn ->
                           (Z.of_nat (length g) < c1)%Z).
Proof.
  induction patterns as [|re patterns IH]; intros i s gaps seen f1 s1 f2 s2 Hlt H1 H2;
    cbn [pass1] in H1, H2.
  - injection H1 as <- _. injection H2 as <- _.
    split; [reflexivity|]. intros g sn X. injection X as <- _. exact Hlt.
  - destruct (while_exec _ re text c1 _ gaps seen) as [[w1 l1]|] eqn:W1;
      [|discriminate].
    destruct (while_exec _ re text c2 _ gaps seen) as [[w2 l2]|] eqn:W2;
      [|discriminate].
    destruct (@while_exec_in_step re text _ _ _ _ _ _ _ _ Hlt W1 W2) as [R C].
    destruct w1 as [g1|g1 sn1].
    + injection H1 as <- _. cbn [in_step] in R. destruct R as [Rl Rg].
      split; [|intros g sn X; discriminate X]. split; [exact Rl|].
      destruct w2 as [g2|g2 sn2].
      * injection H2 as <- _. exact Rg.
      * apply pass1_grows in H2. eapply grows_trans; eauto.
    + cbn [in_step] in R. subst w2.
      destruct (C g1 sn1 eq_refl) as [Cl <-].
      eapply IH; [exact Cl|exact H1|exact H2].
Qed.

Lemma pass2_in_step :
  forall sentences gaps seen,
    (Z.of_nat (length gaps) < c1)%Z ->
    pass2 sentences c1 gaps seen
    = firstn (Z.to_nat c1) (pass2 sentences c2 gaps seen).
Proof.
  induction sentences as [|sentence sentences IH]; intros gaps seen Hlt;
    cbn [pass2].
  - rewrite firstn_all2; [reflexivity|lia].
  - destruct (negb (Str.endsWith _ _)); [now apply IH|].
    destruct (length _ <? 30); [now apply IH|].
    destruct (existsb _ FILTER_PATTERNS); [now apply IH|].
    destruct (existsb _ DOCUMENT_NOISE_PATTERNS); [now apply IH|].
    destruct (negb (test WH_VERB _) && negb (test PRONOUN_VERB _))%bool;
      [now apply IH|].
    pose proof (@record_in_step (Str.trim sentence) gaps seen Hlt) as R.
    destruct (record c1 (Str.trim sentence) gaps seen) as [g1|g1 sn1] eqn:R1.
    + cbn [in_step] in R. destruct R as [Rl Rg].
      assert (G : grows g1 (match record c2 (Str.trim sentence) gaps seen with
                            | Return gaps' => gaps'
                            | Continue gaps' seen' => pass2 sentences c2 gaps' seen'
                            end)).
      { destruct (record c2 (Str.trim sentence) gaps seen) as [g2|g2 sn2];
          [exact Rg|].
        eapply grows_trans; [exact Rg|apply pass2_grows]. }
      replace (Z.to_nat c1) with (length g1) by lia.
      symmetry. now apply grows_firstn.
    + cbn [in_step] in R. rewrite R. apply IH.
      eapply record_continue_below; eauto.
Qed.

Lemma extractGapsFromText_in_step text s g1 s1 g2 s2 :
  (1 <= c1)%Z ->
  extractGapsFromText text c1 s = Some (g1, s1) ->
  extractGapsFromText text c2 s = Some (g2, s2) ->
  g1 = firstn (Z.to_nat c1) g2.
Proof.
  unfold extractGapsFromText. intros Hc H1 H2.
  destruct (pass1 GAP_PATTERNS 0 text c1 s [] []) as [[f1 t1]|] eqn:P1;
    [|discriminate].
  destruct (pass1 GAP_PATTERNS 0 text c2 s [] []) as [[f2 t2]|] eqn:P2;
    [|discriminate].
  assert (Hlt : (Z.of_nat (length (@nil (list ascii))) < c1)%Z) by (simpl; lia).
  destruct (@pass1_in_step text _ _ _ _ _ _ _ _ _ Hlt P1 P2) as [R C].
  destruct f1 as [a|a sa].
  - injection H1 as <- _. cbn [in_step] in R. destruct R as [Rl Rg].
    replace (Z.to_nat c1) with (length a) by lia.
    symmetry. apply grows_firstn.
    destruct f2 as [b|b sb]; injection H2 as <- _; [exact Rg|].
    eapply grows_trans; [exact Rg|apply pass2_grows].
  - cbn [in_step] in R. subst f2. injection H1 as <- _. injection H2 as <- _.
    apply pass2_in_step. exact (C a sa eq_refl).
Qed.

End TwoCaps.

End CapFacts.

Import CapFacts.

(** X4.  The cap only truncates: for caps [1 <= c1 <= c2] and otherwise the
    same call, the gaps returned under [c1] are the first [c1] of those
    returned under [c2], in the same order. *)
Theorem X4_cap_only_truncates clock s ms e threshold ks src c1 c2 q1 q2 :
  (1 <= c1)%Z -> (c1 <= c2)%Z ->
  questions (identifyGaps clock s
               (mkParams ms e (Some (mkConfig threshold ks (Some c1))) src))
  = Some q1 ->
  questions (identifyGaps clock s
               (mkParams ms e (Some (mkConfig threshold ks (Some c2))) src))
  = Some q2 ->
  q1 = firstn (Z.to_nat c1) q2.
Proof.
  intros H1 H12.
  set (p1 := mkParams ms e (Some (mkConfig threshold ks (Some c1))) src).
  set (p2 := mkParams ms e (Some (mkConfig threshold ks (Some c2))) src).
  assert (M1 : maxGapsOf p1 = c1).
  { unfold maxGapsOf, or_int, p1. simpl. destruct (Z.eqb_spec c1 0); [lia|reflexivity]. }
  assert (M2 : maxGapsOf p2 = c2).
  { unfold maxGapsOf, or_int, p2. simpl. destruct (Z.eqb_spec c2 0); [lia|reflexivity]. }
  unfold identifyGaps. rewrite M1, M2.
  change (messages p2) with (messages p1).
  change (entropyOf p2) with (entropyOf p1).
  change (thresholdOf p2) with (thresholdOf p1).
  change (keywordsOf p2) with (keywordsOf p1).
  change (source p2) with (source p1).
  destruct (conversationText (messages p1)) as [[|c text]|err].
  - cbn [questions map]. intros A B. injection A as <-. injection B as <-.
    now rewrite firstn_nil.
  - destruct (Qltb _ _ && negb _)%bool.
    + cbn [questions map]. intros A B. injection A as <-. injection B as <-.
      now rewrite firstn_nil.
    + destruct (extractGapsFromText (c :: text) c1 s) as [[g1 s1]|] eqn:E1;
        [|discriminate].
      destruct (extractGapsFromText (c :: text) c2 s) as [[g2 s2]|] eqn:E2;
        [|discriminate].
      cbn [questions]. rewrite !questions_mapi.
      intros A B. injection A as <-. injection B as <-.
      exact (@extractGapsFromText_in_step c1 c2 H12 (c :: text) s g1 s1 g2 s2 H1 E1 E2).
  - discriminate.
Qed.

Lemma X4_cap_only_truncates_witness :
  [cascades_here] = firstn (Z.to_nat 1) [cascades_here; cascades].
Proof.
  apply (@X4_cap_only_truncates clock1 fresh
           (Some [user cascades_here; user cascades]) (Some (8 # 10)%Q)
           (Some (1 # 2)%Q) None None 1%Z 2%Z).
  - lia.
  - lia.
  - vm_compute. reflexivity.
  - vm_compute. reflexivity.
Defined.

(** ** Which messages count *)

Module MessageFacts.

Lemma Forall2_skipn {A} (R : A -> A -> Prop) l l' :
  Forall2 R l l' -> forall n, Forall2 R (skipn n l) (skipn n l').
Proof.
  induction 1 as [|a b l l' Hab Hl IH]; intros [|n]; simpl; auto.
Qed.

Lemma Forall2_sliceLast {A} (R : A -> A -> Prop) n l l' :
  Forall2 R l l' -> Forall2 R (sliceLast n l) (sliceLast n l').
Proof.
  intros H. unfold sliceLast. rewrite (Forall2_length H).
  now apply Forall2_skipn.
Qed.

Lemma conversationParts_non_user m later :
  non_user m -> conversationParts (m :: later) = conversationParts later.
Proof.
  intros (role & G & U). cbn [conversationParts]. rewrite G, U. reflexivity.
Qed.

Lemma conversationParts_same l l' :
  Forall2 same_for_extraction l l' ->
  conversationParts l = conversationParts l'.
Proof.
  induction 1 as [|a b l l' Hab Hl IH]; [reflexivity|].
  destruct Hab as [<-|[Ha Hb]].
  - cbn [conversationParts]. now rewrite IH.
  - now rewrite !conversationParts_non_user.
Qed.

(** A message the loop cannot read stops it, wherever it stands. *)
Lemma conversationParts_throws l :
  Exists (fun m => nullish m \/ unreadable m) l ->
  conversationParts l = Throw TypeError.
Proof.
  induction 1 as [m l [[->| ->]|(role & G & U & N)]|m l _ IH];
    cbn [conversationParts]; try reflexivity.
  - rewrite G, U, N. reflexivity.
  - destruct (Value.get m "role") as [role|[]]; [|reflexivity].
    destruct (negb (is_user role)); [exact IH|].
    destruct (normalizeText m) as [[|c text]|[]]; [exact IH| |reflexivity].
    destruct (10 <? _); [now rewrite IH|exact IH].
Qed.

End MessageFacts.

Import MessageFacts.

(** X5.  Messages that are not from the user do not count: exchanging any
    of them for other messages that are not from the user (a different reply
    of the assistant, a system note, a number) leaves the outcome as it is. *)
Theorem X5_only_user_messages_count clock s ms ms' e cfg src :
  Forall2 same_for_extraction ms ms' ->
  identifyGaps clock s (mkParams (Some ms) e cfg src)
  = identifyGaps clock s (mkParams (Some ms') e cfg src).
Proof.
  intros H. unfold identifyGaps.
  change (messages (mkParams (Some ms) e cfg src)) with (Some ms).
  change (messages (mkParams (Some ms') e cfg src)) with (Some ms').
  unfold conversationText.
  now rewrite (conversationParts_same (Forall2_sliceLast 6 H)).
Qed.

Lemma X5_only_user_messages_count_witness :
  identifyGaps clock1 fresh
    (mkParams (Some [assistant cascades; user tidal]) (Some (8 # 10)%Q) None None)
  = identifyGaps clock1 fresh
      (mkParams (Some [VNum 7; user tidal]) (Some (8 # 10)%Q) None None).
Proof.
  apply (@X5_only_user_messages_count clock1 fresh
           [assistant cascades; user tidal] [VNum 7; user tidal]).
  constructor.
  - right. split.
    + exists (VStr (str "assistant")). split; reflexivity.
    + exists VUndefined. split; reflexivity.
  - constructor; [now left|constructor].
Defined.

(** X6.  identifyGaps throws a TypeError whenever one of the last six
    messages is [null] or [undefined], or is a message of the user whose
    content does not convert to a string (an object with an own property
    [toString], say), whatever the entropy, the configuration and the other
    messages. *)
Theorem X6_unreadable_entry_throws clock s p :
  Exists (fun m => nullish m \/ unreadable m) (recentMessages p) ->
  identifyGaps clock s p = Throws TypeError.
Proof.
  intros H. unfold identifyGaps, conversationText. fold (recentMessages p).
  now rewrite (conversationParts_throws H).
Qed.

Lemma X6_unreadable_entry_throws_witness :
  identifyGaps clock1 fresh
    (exchange
       [user tidal; user_content (VObj [("toString"%string, VNum 1)])]
       (8 # 10) None)
  = Throws TypeError.
Proof.
  apply X6_unreadable_entry_throws.
  apply Exists_cons_tl, Exists_cons_hd. right.
  exists (VStr (str "user")). repeat split.
Defined.

(** X7.  A higher entropy never loses gaps: when a call returns at least one
    gap, the same call with a higher entropy returns the same questions. *)
Theorem X7_gate_is_monotone clock s ms e e' cfg src qs :
  (e <= e')%Q -> qs <> [] ->
  questions (identifyGaps clock s (mkParams ms (Some e) cfg src)) = Some qs ->
  questions (identifyGaps clock s (mkParams ms (Some e') cfg src)) = Some qs.
Proof.
  intros Hle Hne.
  set (p := mkParams ms (Some e) cfg src).
  set (p' := mkParams ms (Some e') cfg src).
  unfold identifyGaps.
  change (messages p') with (messages p).
  change (thresholdOf p') with (thresholdOf p).
  change (keywordsOf p') with (keywordsOf p).
  change (maxGapsOf p') with (maxGapsOf p).
  change (source p') with (source p).
  change (entropyOf p) with e. change (entropyOf p') with e'.
  destruct (conversationText (messages p)) as [[|c text]|err].
  - intros H. injection H as <-. now contradiction Hne.
  - destruct (Qltb e (thresholdOf p) && negb (keywordHit (keywordsOf p) (c :: text)))%bool
      eqn:G.
    + intros H. injection H as <-. now contradiction Hne.
    + assert (G' : (Qltb e' (thresholdOf p)
                    && negb (keywordHit (keywordsOf p) (c :: text)))%bool = false).
      { apply andb_false_iff in G. apply andb_false_iff. destruct G as [G|G]; [left|now right].
        unfold Qltb in *. apply negb_false_iff in G. apply negb_false_iff.
        apply Qle_bool_iff in G. apply Qle_bool_iff. eapply Qle_trans; eauto. }
      rewrite G'.
      destruct (extractGapsFromText (c :: text) (maxGapsOf p) s) as [[q s1]|];
        [|discriminate].
      cbn [questions]. now rewrite !questions_mapi.
  - discriminate.
Qed.

Lemma X7_gate_is_monotone_witness :
  questions (identifyGaps clock1 fresh
               (mkParams (Some [user tidal]) (Some (9 # 10)%Q) None None))
  = Some [tidal].
Proof.
  apply (@X7_gate_is_monotone clock1 fresh (Some [user tidal]) (5 # 10)%Q (9 # 10)%Q
           None None [tidal]).
  - vm_compute. discriminate.
  - discriminate.
  - vm_compute. reflexivity.
Defined.

(** ** The records *)

Module RecordFacts.

Lemma str_inj a b : str a = str b -> a = b.
Proof.
  intros H. unfold str in H.
  rewrite <- (string_of_list_ascii_of_string a),
          <- (string_of_list_ascii_of_string b).
  now rewrite H.
Qed.

Lemma to_int_proper n : Z.to_int n <> Decimal.Pos Decimal.Nil
                        /\ Z.to_int n <> Decimal.Neg Decimal.Nil.
Proof.
  destruct n as [|p|p]; simpl; split; try discriminate;
    intros H; injection H as H; now apply (DecimalPos.Unsigned.to_uint_nonnil p).
Qed.

(** [String(n)] tells integers apart. *)
Lemma ofZ_inj a b : Str.ofZ a = Str.ofZ b -> a = b.
Proof.
  intros H. apply str_inj in H. apply DecimalZ.to_int_inj.
  destruct (to_int_proper a) as [A1 A2], (to_int_proper b) as [B1 B2].
  pose proof (@NilZero.isi _ A1 A2) as Ia. pose proof (@NilZero.isi _ B1 B2) as Ib.
  rewrite H in Ia. rewrite Ia in Ib. now injection Ib.
Qed.

Lemma string_of_uint_digits d :
  ~ In "_"%char (str (NilEmpty.string_of_uint d)).
Proof.
  induction d; simpl; [intros []|..]; intros [H|H]; try discriminate H; auto.
Qed.

(** The decimal form of an integer holds no underscore. *)
Lemma ofZ_no_underscore n : ~ In "_"%char (Str.ofZ n).
Proof.
  unfold Str.ofZ.
  assert (U : forall d, ~ In "_"%char (str (NilZero.string_of_uint d))).
  { intros d. destruct d; try apply string_of_uint_digits.
    simpl. intros [H|[]]. discriminate H. }
  destruct (Z.to_int n) as [d|d]; simpl.
  - apply U.
  - intros [H|H]; [discriminate H|]. now apply (U d).
Qed.

(** What follows the last underscore is determined. *)
Lemma last_field_inj (u : ascii) a a' b b' :
  ~ In u b -> ~ In u b' -> a ++ u :: b = a' ++ u :: b' -> b = b'.
Proof.
  revert a'. induction a as [|x a IH]; intros [|x' a'] Hb Hb' E; simpl in E.
  - now injection E.
  - injection E as <- E. exfalso. apply Hb. rewrite E. apply in_or_app.
    right. now left.
  - injection E as -> E. exfalso. apply Hb'. rewrite <- E. apply in_or_app.
    right. now left.
  - injection E as _ E. now apply (IH a').
Qed.

Lemma wrap_id_inj clock src corpus e i j q q' :
  Gap.id (wrap clock src corpus e i q) = Gap.id (wrap clock src corpus e j q') ->
  i = j.
Proof.
  cbn [wrap Gap.id]. intros E.
  rewrite !(app_assoc (str "gap_")) in E.
  change (str "_") with ["_"%char] in E. cbn [app] in E.
  apply last_field_inj in E; try apply ofZ_no_underscore.
  apply ofZ_inj in E. now apply Nat2Z.inj.
Qed.

Lemma in_mapi {A B} (f : nat -> A -> B) l : forall idx y,
  In y (mapi f idx l) -> exists k x, idx <= k /\ y = f k x.
Proof.
  induction l as [|x l IH]; intros idx y; cbn [mapi]; [intros []|].
  intros [<-|H].
  - now exists idx, x.
  - destruct (IH _ _ H) as (k & x' & Hk & ->). exists k, x'. split; [lia|reflexivity].
Qed.

Lemma mapi_ids_distinct clock src corpus e qs : forall idx,
  NoDup (map Gap.id (mapi (wrap clock src corpus e) idx qs)).
Proof.
  induction qs as [|q qs IH]; intros idx; cbn [mapi map]; constructor.
  - intros H. apply in_map_iff in H. destruct H as (g & E & H).
    apply in_mapi in H. destruct H as (k & q' & Hk & ->).
    apply wrap_id_inj in E. lia.
  - apply IH.
Qed.

Lemma mapi_Forall {A B} (P : B -> Prop) (f : nat -> A -> B) l :
  (forall k x, P (f k x)) -> forall idx, Forall P (mapi f idx l).
Proof.
  intros H. induction l as [|x l IH]; intros idx; cbn [mapi]; constructor; auto.
Qed.

Lemma returned_cases clock s p gaps :
  returned (identifyGaps clock s p) = Some gaps ->
  gaps = []
  \/ exists corpus qs,
       conversationText (messages p) = Normal corpus
       /\ gaps = mapi (wrap clock (source p) corpus (entropyOf p)) 0 qs.
Proof.
  unfold identifyGaps.
  destruct (conversationText (messages p)) as [[|c text]|err].
  - intros H. injection H as <-. now left.
  - destruct (Qltb _ _ && negb _)%bool.
    + intros H. injection H as <-. now left.
    + destruct (extractGapsFromText (c :: text) (maxGapsOf p) s) as [[qs s1]|];
        [|discriminate].
      intros H. injection H as <-. right. now exists (c :: text), qs.
  - discriminate.
Qed.

End RecordFacts.

Import RecordFacts.

(** X8.  The ids of the gaps of one call are pairwise distinct, whatever
    the clock reads: the index that ends an id tells them apart even when
    [Date.now()] gives the same millisecond for all of them. *)
Theorem X8_ids_distinct clock s p gaps :
  returned (identifyGaps clock s p) = Some gaps ->
  NoDup (map Gap.id gaps).
Proof.
  intros H. apply returned_cases in H.
  destruct H as [->|(corpus & qs & _ & ->)]; [constructor|].
  apply mapi_ids_distinct.
Qed.

Lemma X8_ids_distinct_witness :
  NoDup [str "gap_1000_0"; str "gap_1000_1"].
Proof.
  change (NoDup (map Gap.id
                    [wrap clock1 None cascades_text (8 # 10)%Q 0 cascades_here;
                     wrap clock1 None cascades_text (8 # 10)%Q 1 cascades])).
  apply (@X8_ids_distinct clock1 fresh
           (exchange [user cascades_text] (8 # 10)%Q (Some 2%Z))).
  vm_compute. reflexivity.
Defined.

(** X9.  Every record of a call carries the same context, the first 1200
    characters of the conversation text, and the entropy of the call; its
    source is never empty, and is the caller's when the caller gave a
    non-empty one. *)
Theorem X9_record_fields clock s p corpus gaps :
  conversationText (messages p) = Normal corpus ->
  returned (identifyGaps clock s p) = Some gaps ->
  Forall (fun g =>
            Gap.context g = firstn 1200 corpus
            /\ length (Gap.context g) <= 1200
            /\ Gap.entropy g = entropyOf p
            /\ Gap.source g <> []
            /\ (forall c src, source p = Some (c :: src) -> Gap.source g = c :: src))
         gaps.
Proof.
  intros C H. apply returned_cases in H.
  destruct H as [->|(corpus' & qs & C' & ->)]; [constructor|].
  rewrite C in C'. injection C' as <-.
  apply mapi_Forall. intros k q. cbn [wrap Gap.context Gap.entropy Gap.source].
  unfold Str.slice0. repeat split.
  - apply firstn_le_length.
  - destruct (source p) as [[|c src]|]; discriminate.
  - intros c src ->. reflexivity.
Qed.

Lemma X9_record_fields_witness :
  Forall (fun g =>
            Gap.context g = firstn 1200 tidal
            /\ length (Gap.context g) <= 1200
            /\ Gap.entropy g = (8 # 10)%Q
            /\ Gap.source g <> []
            /\ (forall c src, Some (str "session-7") = Some (c :: src) ->
                Gap.source g = c :: src))
         [Gap.mk (str "gap_1000_0") tidal (str "session-7") tidal (8 # 10)%Q].
Proof.
  apply (@X9_record_fields clock1 fresh
           (mkParams (Some [user tidal]) (Some (8 # 10)%Q) None
              (Some (str "session-7"))) tidal).
  - vm_compute. reflexivity.
  - vm_compute. reflexivity.
Defined.

(** ** Cleaning a message *)

Module CleanFacts.

Lemma eqb_ci_bracket x : Char.eqb_ci true "[" x = true -> x = "["%char.
Proof.
  destruct x as [[] [] [] [] [] [] [] []]; vm_compute; intros H;
    first [reflexivity|discriminate H].
Qed.

Lemma block_needs_bracket b x t :
  x <> "["%char -> match_at CONTEXT_BLOCK_PATTERN (b, x :: t) = None.
Proof.
  intros Hx. unfold match_at. rewrite CONTEXT_BLOCK_PATTERN_eq.
  change (ignoreCase CONTEXT_BLOCK_PATTERN) with true.
  cbn [rmatch]. rewrite rmatch_lit_chars.
  change (ci_prefix true (str "[") (x :: t))
    with (Char.eqb_ci true "[" x && true)%bool.
  destruct (Char.eqb_ci true "[" x) eqn:E; [|reflexivity].
  now apply eqb_ci_bracket in E.
Qed.

Lemma stamp_needs_bracket b x t :
  x <> "["%char -> match_at TIMESTAMP_PREFIX (b, x :: t) = None.
Proof.
  intros Hx. unfold match_at.
  assert (E : exists r, pattern TIMESTAMP_PREFIX = Seq Bol (Seq (Lit "[") r))
    by (eexists; reflexivity).
  destruct E as [r ->]. change (ignoreCase TIMESTAMP_PREFIX) with false.
  cbn [rmatch fst snd]. destruct b; [|reflexivity].
  cbn [flat_map rmatch fst snd Char.eqb_ci].
  destruct (Ascii.eqb_spec "[" x) as [<-|_]; [now contradiction Hx|reflexivity].
Qed.

Lemma stamp_not_at_end b : match_at TIMESTAMP_PREFIX (b, []) = None.
Proof. destruct b; reflexivity. Qed.

(** Where no character of [pre] starts a match, the replacement leaves
    [pre] in place and goes on behind it. *)
Lemma replace_from_no_match re by_ pre : forall b tail,
  (forall b' x t, In x pre -> match_at re (b', x :: t) = None) ->
  replace_from re by_ b (pre ++ tail) 0 true
  = pre ++ replace_from re by_ (rev pre ++ b) tail 0 true.
Proof.
  induction pre as [|c pre IH]; intros b tail H; [reflexivity|].
  cbn [app replace_from]. rewrite (H b c (pre ++ tail)) by now left.
  rewrite IH by (intros b' x t Hx; apply H; now right).
  cbn [rev]. now rewrite <- app_assoc.
Qed.

Lemma replace_no_match re by_ text :
  (forall b' x t, In x text -> match_at re (b', x :: t) = None) ->
  (forall b', match_at re (b', []) = None) ->
  replace re by_ text = text.
Proof.
  intros H E. unfold replace.
  rewrite <- (app_nil_r text) at 1. rewrite (@replace_from_no_match re by_ text [] [] H).
  cbn [replace_from]. rewrite E. apply app_nil_r.
Qed.

Lemma replace_block_plain text :
  ~ In "["%char text -> replace CONTEXT_BLOCK_PATTERN [] text = text.
Proof.
  intros H. apply replace_no_match; [|apply no_match_at_end].
  intros b' x t Hx. apply block_needs_bracket. now intros ->.
Qed.

Lemma replace_stamp_plain text :
  ~ In "["%char text -> replace TIMESTAMP_PREFIX [] text = text.
Proof.
  intros H. apply replace_no_match; [|apply stamp_not_at_end].
  intros b' x t Hx. apply stamp_needs_bracket. now intros ->.
Qed.

(** A header is matched wherever it stands. *)
Lemma header_match_from b h rest :
  In (canonical h) HEADERS -> no_opener_b rest = true ->
  match_at CONTEXT_BLOCK_PATTERN (b, h ++ rest) = Some (rev (h ++ rest) ++ b, []).
Proof.
  intros Hh Hrest. unfold match_at. rewrite CONTEXT_BLOCK_PATTERN_eq.
  change (ignoreCase CONTEXT_BLOCK_PATTERN) with true.
  unfold HEADERS in Hh. cbn [In] in Hh.
  destruct Hh as [Hh|[Hh|[Hh|[Hh|[]]]]]; symmetry in Hh;
    unfold canonical in Hh; cbn [str list_ascii_of_string] in Hh;
    spell h Hh;
    cbn [rmatch];
    repeat (rewrite !rmatch_lit_chars;
            cbn [ci_prefix str list_ascii_of_string app];
            fold_case;
            cbn -[BLOCK_END rep rmatch lit_chars Char.eqb_ci]);
    rewrite ?app_nil_r;
    rewrite (@lazy_star_reaches_end rest _ Hrest);
    cbn [rev app]; rewrite <- ?app_assoc; reflexivity.
Qed.

Lemma replace_from_header b h rest :
  In (canonical h) HEADERS -> no_opener_b rest = true ->
  replace_from CONTEXT_BLOCK_PATTERN [] b (h ++ rest) 0 true = [].
Proof.
  intros Hh Hrest.
  pose proof (@header_match_from b h rest Hh Hrest) as M.
  assert (Hcons : exists c t, h ++ rest = c :: t).
  { destruct h as [|c h]; [|simpl; eauto].
    unfold HEADERS in Hh. simpl in Hh.
    destruct Hh as [Hh|[Hh|[Hh|[Hh|[]]]]]; discriminate Hh. }
  destruct Hcons as (c & t & E). rewrite E in *.
  cbn [replace_from]. rewrite M. unfold index. cbn [fst app].
  rewrite length_app, length_rev. cbn [length].
  replace (S (length t) + length b - length b) with (S (length t)) by lia.
  apply replace_from_skip_all. apply no_match_at_end.
Qed.

Lemma splitOn_nonempty sep s : Str.splitOn sep s <> [].
Proof.
  destruct s as [|c s]; cbn [Str.splitOn]; [discriminate|].
  destruct (Ascii.eqb c sep); [discriminate|].
  destruct (Str.splitOn sep s); discriminate.
Qed.

(** Splitting on a character and joining with it gives the text back. *)
Lemma join_splitOn sep s : Str.join [sep] (Str.splitOn sep s) = s.
Proof.
  induction s as [|c s IH]; [reflexivity|]. cbn [Str.splitOn].
  destruct (Ascii.eqb_spec c sep) as [->|_].
  - destruct (Str.splitOn sep s) as [|p ps] eqn:E;
      [now apply splitOn_nonempty in E|].
    change (Str.join [sep] ([] :: p :: ps))
      with ([] ++ [sep] ++ Str.join [sep] (p :: ps)).
    now rewrite IH.
  - destruct (Str.splitOn sep s) as [|p ps] eqn:E;
      [now apply splitOn_nonempty in E|].
    destruct ps as [|p' ps].
    + cbn [Str.join] in *. now rewrite IH.
    + change (Str.join [sep] ((c :: p) :: p' :: ps))
        with (c :: Str.join [sep] (p :: p' :: ps)).
      now rewrite IH.
Qed.

Lemma filter_all {A} (f : A -> bool) l :
  (forall x, In x l -> f x = true) -> filter f l = l.
Proof.
  induction l as [|x l IH]; intros H; [reflexivity|]. cbn [filter].
  rewrite (H x) by now left. f_equal. apply IH. intros y Hy. apply H. now right.
Qed.

Lemma trimmed_not_spaced line w :
  Str.startsWith (Str.trim line) (" "%char :: w) = false.
Proof.
  pose proof (ExcerptFacts.trim_head line) as H.
  destruct (Str.trim line) as [|c t]; [reflexivity|]. cbn [Str.startsWith].
  destruct (Ascii.eqb_spec " " c) as [<-|_]; [discriminate H|reflexivity].
Qed.

End CleanFacts.

Import CleanFacts.

(** X10.  A context block cuts the message at its header: text without a
    bracket before the header is cleaned as if the message ended there, and
    what follows the header, up to the end, is lost. *)
Theorem X10_block_cuts_the_message pre h rest :
  ~ In "["%char pre -> In (canonical h) HEADERS -> no_opener rest ->
  stripContextBlocks (pre ++ h ++ rest) = stripContextBlocks pre.
Proof.
  intros Hpre Hh Hrest. apply no_opener_iff in Hrest. unfold stripContextBlocks.
  rewrite (@replace_block_plain pre Hpre). unfold replace at 2.
  rewrite (@replace_from_no_match CONTEXT_BLOCK_PATTERN [] pre [] (h ++ rest)).
  - now rewrite (@replace_from_header (rev pre ++ []) h rest Hh Hrest), app_nil_r.
  - intros b' x t Hx. apply block_needs_bracket. now intros ->.
Qed.

Lemma X10_block_cuts_the_message_witness :
  stripContextBlocks
    (str "Thanks! " ++ str "[Stability Context]" ++ str " Entropy: 0.4 and then my question")
  = str "Thanks!".
Proof.
  rewrite (@X10_block_cuts_the_message (str "Thanks! ") (str "[Stability Context]")
             (str " Entropy: 0.4 and then my question")).
  - reflexivity.
  - vm_compute. intuition discriminate.
  - vm_compute. auto.
  - apply no_opener_iff. vm_compute. reflexivity.
Defined.

(** X11.  A message without a bracket and without a marker line comes back
    trimmed and otherwise untouched. *)
Theorem X11_plain_text_only_trimmed text :
  ~ In "["%char text ->
  (forall line marker,
     In line (Str.splitOn LF text) -> In marker injection_markers ->
     Str.startsWith (Str.trim line) marker = false) ->
  stripContextBlocks text = Str.trim text.
Proof.
  intros Hb Hm. unfold stripContextBlocks.
  rewrite (@replace_block_plain text Hb), (@replace_stamp_plain text Hb).
  rewrite filter_all; [now rewrite join_splitOn|].
  intros line Hl. apply forallb_forall. intros marker Hin.
  now rewrite (Hm line marker Hl Hin).
Qed.

Lemma X11_plain_text_only_trimmed_witness :
  stripContextBlocks (str "  So it goes." ++ [LF] ++ str "Session notes apart.  ")
  = str "So it goes." ++ [LF] ++ str "Session notes apart.".
Proof.
  rewrite X11_plain_text_only_trimmed.
  - reflexivity.
  - vm_compute. intuition discriminate.
  - intros line marker Hl Hm. vm_compute in Hl.
    destruct Hl as [<-|[<-|[]]]; vm_compute in Hm;
      repeat (destruct Hm as [<-|Hm]; [reflexivity|]); contradiction.
Defined.

(** X12.  The marker ['  You said:'] never fires: it begins with a space and
    is tested against the trimmed line.  Lines that begin with [You said:]
    pass the filter. *)
Theorem X12_you_said_marker_is_dead line :
  In (str "  You said:") injection_markers
  /\ Str.startsWith (Str.trim line) (str "  You said:") = false.
Proof.
  split; [simpl; auto 10|]. apply trimmed_not_spaced.
Qed.

(** X13.  What stripContextBlocks returns is trimmed: trimming it again
    changes nothing, and neither end of it is white space. *)
Theorem X13_cleaned_is_trimmed text :
  Str.trim (stripContextBlocks text) = stripContextBlocks text
  /\ match stripContextBlocks text with
     | [] => True
     | c :: _ => Char.isSpace c = false
     end
  /\ match rev (stripContextBlocks text) with
     | [] => True
     | c :: _ => Char.isSpace c = false
     end.
Proof.
  unfold stripContextBlocks. split; [apply ExcerptFacts.trim_idem|].
  split; [apply ExcerptFacts.trim_head|apply ExcerptFacts.trim_last].
Qed.

(** X14.  normalizeText on a multi-part content: the texts of the parts
    joined by single spaces.  A hole counts as an empty text and keeps its
    separator. *)
Theorem X14_parts_joined_by_spaces fields parts :
  Value.lookup "content" fields = VArr (map text_part parts) ->
  normalizeText (VObj fields) = Normal (Str.join (str " ") (map text_of parts)).
Proof.
  intros H. unfold normalizeText. cbn [Value.truthy negb Value.get_opt Value.get].
  rewrite H. unfold Value.join. rewrite map_map.
  assert (E : Value.strings
                (map (fun o =>
                        Value.or (Value.get_opt (text_part o) "text")
                          (Value.or (Value.get_opt (text_part o) "content")
                             (VStr []))) parts)
              = Normal (map text_of parts)).
  { clear H. induction parts as [|o parts IH]; [reflexivity|].
    cbn [map]. destruct o as [[|c t]|];
      cbn [Value.strings text_part text_of Value.get_opt Value.get Value.lookup
           String.eqb Ascii.eqb Bool.eqb Value.or Value.truthy Value.toString];
      now rewrite IH. }
  now rewrite E.
Qed.

Lemma X14_parts_joined_by_spaces_witness :
  normalizeText
    (VObj [("role"%string, VStr (str "user"));
           ("content"%string,
            VArr (map text_part [Some (str "Why"); None; Some (str "so?")]))])
  = Normal (str "Why  so?").
Proof.
  apply (@X14_parts_joined_by_spaces
           [("role"%string, VStr (str "user"));
            ("content"%string,
             VArr (map text_part [Some (str "Why"); None; Some (str "so?")]))]
           [Some (str "Why"); None; Some (str "so?")]).
  reflexivity.
Defined.

(** X15.  The loops of pass 1 end: every pattern of GAP_PATTERNS consumes at
    least one character, so each [exec] moves [lastIndex] forward, and
    extractGapsFromText returns on every text, cap and state of the RegExp
    objects. *)
Theorem X15_extraction_terminates text maxCount s :
  Forall (fun re => 0 < minlen (pattern re)) GAP_PATTERNS
  /\ exists gaps s', extractGapsFromText text maxCount s = Some (gaps, s').
Proof.
  split; [apply GAP_PATTERNS_consume|apply extractGapsFromText_finishes].
Qed.

(** ** Merging configurations *)

Module MergeFacts.
Import Index.

Lemma value_obj_ind (P : value -> Prop) :
  (forall v, (forall fields, v <> VObj fields) -> P v) ->
  (forall fields, Forall (fun kv => P (snd kv)) fields -> P (VObj fields)) ->
  forall v, P v.
Proof.
  intros Hleaf Hobj. fix IH 1. intros [ | |b|n|s|items|fields];
    try (apply Hleaf; discriminate).
  apply Hobj. revert fields. fix IHf 1. intros [|[k x] fields]; constructor.
  - apply IH.
  - apply IHf.
Qed.

Lemma distinct_keys_NoDup keys : distinct_keys keys = true -> NoDup keys.
Proof.
  induction keys as [|k keys IH]; cbn [distinct_keys]; intros H; constructor;
    apply andb_prop in H; destruct H as [H1 H2].
  - intros Hin. apply negb_true_iff in H1.
    assert (E : existsb (String.eqb k) keys = true)
      by (apply existsb_exists; exists k; split; [exact Hin|apply String.eqb_refl]).
    rewrite E in H1. discriminate H1.
  - now apply IH.
Qed.

Lemma plain_fields fields :
  plain (VObj fields) = true ->
  NoDup (map fst fields) /\ Forall (fun kv => plain (snd kv) = true) fields.
Proof.
  cbn [plain]. intros H. apply andb_prop in H. destruct H as [H Hall].
  apply andb_prop in H. destruct H as [Hd _]. split.
  - now apply distinct_keys_NoDup.
  - clear Hd. induction fields as [|[k x] fields IH]; constructor;
      apply andb_prop in Hall; destruct Hall as [H1 H2]; [exact H1|now apply IH].
Qed.

Lemma deepMerge_obj target fields :
  deepMerge target (VObj fields) = VObj (assign_all fields (ownEntries target)).
Proof.
  reflexivity.
Qed.

Lemma lookup_put key v result k :
  Value.lookup k (put key v result)
  = if String.eqb key k then v else Value.lookup k result.
Proof.
  induction result as [|[k0 x] result IH]; cbn [put Value.lookup].
  - reflexivity.
  - destruct (String.eqb_spec k0 key) as [->|N]; cbn [Value.lookup].
    + destruct (String.eqb key k); reflexivity.
    + rewrite IH. destruct (String.eqb_spec k0 k) as [->|N']; [|reflexivity].
      destruct (String.eqb_spec key k) as [->|_]; [now contradiction N|reflexivity].
Qed.

Lemma keys_put key v result k :
  In k (map fst (put key v result)) <-> k = key \/ In k (map fst result).
Proof.
  induction result as [|[k0 x] result IH]; cbn [put map fst In].
  - intuition.
  - destruct (String.eqb_spec k0 key) as [->|N]; cbn [map fst In].
    + intuition.
    + rewrite IH. intuition.
Qed.

(** Writing what is there already changes nothing. *)
Lemma put_same key v result :
  In key (map fst result) -> Value.lookup key result = v ->
  put key v result = result.
Proof.
  induction result as [|[k0 x] result IH]; cbn [put map fst In Value.lookup];
    [contradiction|].
  destruct (String.eqb_spec k0 key) as [->|N]; intros Hin Hv.
  - now rewrite Hv.
  - f_equal. apply IH; [|exact Hv]. destruct Hin as [E|Hin]; [now contradiction N|exact Hin].
Qed.

(** A key that is not there is added at the end. *)
Lemma put_new key v result :
  ~ In key (map fst result) -> put key v result = result ++ [(key, v)].
Proof.
  induction result as [|[k0 x] result IH]; cbn [put map fst In app]; intros H;
    [reflexivity|].
  destruct (String.eqb_spec k0 key) as [->|N]; [exfalso; auto|].
  f_equal. apply IH. auto.
Qed.

Lemma keys_assign_all entries : forall result k,
  In k (map fst (assign_all entries result))
  <-> In k (map fst entries) \/ In k (map fst result).
Proof.
  induction entries as [|[key next] entries IH]; intros result k;
    cbn [assign_all map fst In]; [intuition|].
  rewrite IH. unfold assign. rewrite keys_put. intuition.
Qed.

Lemma lookup_assign_all_other entries : forall result k,
  ~ In k (map fst entries) ->
  Value.lookup k (assign_all entries result) = Value.lookup k result.
Proof.
  induction entries as [|[key next] entries IH]; intros result k H;
    cbn [assign_all map fst In] in *; [reflexivity|].
  rewrite IH by auto. unfold assign. rewrite lookup_put.
  destruct (String.eqb_spec key k) as [->|_]; [exfalso; auto|reflexivity].
Qed.

Lemma lookup_assign_all_own entries : forall result key next,
  NoDup (map fst entries) -> In (key, next) entries ->
  Value.lookup key (assign_all entries result)
  = match next with
    | VObj _ => deepMerge (Value.or (Value.lookup key result) (VObj [])) next
    | _ => next
    end.
Proof.
  induction entries as [|[k0 n0] entries IH]; intros result key next Hnd Hin;
    cbn [assign_all map fst In] in *; [contradiction|].
  inversion Hnd as [|? ? Hk0 Hnd']; subst.
  destruct Hin as [E|Hin].
  - injection E as -> ->. rewrite lookup_assign_all_other by exact Hk0.
    unfold assign. rewrite lookup_put, String.eqb_refl. reflexivity.
  - rewrite (@IH _ key next Hnd' Hin).
    assert (N : k0 <> key).
    { intros ->. apply Hk0. apply in_map_iff. now exists (key, next). }
    unfold assign at 1. rewrite lookup_put.
    destruct (String.eqb_spec k0 key) as [E|_]; [now contradiction N|reflexivity].
Qed.

Lemma assign_all_fixed entries : forall result,
  Forall (fun kv => assign (fst kv) (snd kv) result = result) entries ->
  assign_all entries result = result.
Proof.
  induction entries as [|[key next] entries IH]; intros result H;
    cbn [assign_all]; [reflexivity|].
  inversion H as [|? ? H1 H2]; subst. cbn [fst snd] in H1. rewrite H1.
  now apply IH.
Qed.

(** Merging into an empty object copies the source. *)
Lemma deepMerge_copy : forall overlay,
  plain overlay = true -> forall fields, overlay = VObj fields ->
  deepMerge (VObj []) overlay = overlay.
Proof.
  induction overlay as [v Hleaf|fields IH] using value_obj_ind;
    intros Hp fields' E; [now apply Hleaf in E|].
  clear fields' E. rewrite deepMerge_obj. f_equal. cbn [ownEntries].
  destruct (plain_fields fields Hp) as [Hnd Hall].
  assert (G : forall entries done,
            NoDup (map fst (done ++ entries)) ->
            Forall (fun kv => plain (snd kv) = true) entries ->
            Forall (fun kv => plain (snd kv) = true ->
                              forall f, snd kv = VObj f ->
                              deepMerge (VObj []) (snd kv) = snd kv) entries ->
            assign_all entries done = done ++ entries).
  { clear. induction entries as [|[key next] entries IHe]; intros done Hnd Hall IH;
      cbn [assign_all]; [now rewrite app_nil_r|].
    inversion Hall as [|? ? Hp Hall']; subst.
    inversion IH as [|? ? IH1 IH']; subst. cbn [snd] in Hp, IH1.
    assert (Hnew : ~ In key (map fst done)).
    { rewrite map_app in Hnd. cbn [map fst] in Hnd.
      apply NoDup_remove_2 in Hnd. intros Hin. apply Hnd. apply in_or_app. now left. }
    assert (Hundef : Value.lookup key done = VUndefined).
    { clear - Hnew. induction done as [|[k x] done IHd]; [reflexivity|].
      cbn [Value.lookup map fst In] in *.
      destruct (String.eqb_spec k key) as [->|_]; [exfalso; auto|]. apply IHd. auto. }
    unfold assign. rewrite (@put_new key _ done Hnew), Hundef.
    change (Value.or VUndefined (VObj [])) with (VObj []).
    replace (match next with
             | VObj _ => deepMerge (VObj []) next
             | _ => next
             end) with next
      by (destruct next; try reflexivity; symmetry; eapply IH1; eauto).
    rewrite IHe; [now rewrite <- app_assoc| |exact Hall'|exact IH'].
    now rewrite <- app_assoc. }
  apply (G fields []); assumption.
Qed.

(** Merging the same source a second time changes nothing. *)
Lemma deepMerge_again : forall overlay,
  plain overlay = true -> forall fields, overlay = VObj fields ->
  forall target,
    deepMerge (deepMerge target overlay) overlay = deepMerge target overlay.
Proof.
  induction overlay as [v Hleaf|fields IH] using value_obj_ind;
    intros Hp fields' E target; [now apply Hleaf in E|].
  clear fields' E. rewrite !deepMerge_obj. f_equal. cbn [ownEntries].
  destruct (plain_fields fields Hp) as [Hnd Hall].
  set (result := assign_all fields (ownEntries target)).
  apply assign_all_fixed. apply Forall_forall. intros [key next] Hin. cbn [fst snd].
  rewrite Forall_forall in IH, Hall.
  specialize (IH _ Hin). specialize (Hall _ Hin). cbn [snd] in IH, Hall.
  unfold assign. apply put_same.
  - apply keys_assign_all. left. apply in_map_iff. now exists (key, next).
  - unfold result at 2. rewrite (@lookup_assign_all_own fields _ key _ Hnd Hin).
    destruct next as [ | |b|n|s|items|f];
      try (unfold result; now rewrite (@lookup_assign_all_own fields _ key _ Hnd Hin)).
    unfold result at 1. rewrite (@lookup_assign_all_own fields _ key _ Hnd Hin).
    match goal with
    | |- deepMerge ?X _ = _ =>
        change (Value.or (deepMerge X (VObj f)) (VObj []))
          with (deepMerge X (VObj f))
    end.
    symmetry. now apply (IH Hall f).
Qed.

End MergeFacts.

Import MergeFacts.

(** X16.  deepMerge field by field: a key the source does not have keeps
    the target's value; a key whose source value is not a plain object (a
    number, a string, [null], an array) takes the source's value as it is;
    a key whose source value is an object takes the merge of the target's
    value, or of [{}] when that is falsy, with it. *)
Theorem X16_merge_field_by_field target fields key :
  Index.plain (VObj fields) = true ->
  (~ In key (map fst fields) ->
   Value.lookup key (Index.ownEntries (Index.deepMerge target (VObj fields)))
   = Value.lookup key (Index.ownEntries target))
  /\ (forall next, In (key, next) fields ->
      Value.lookup key (Index.ownEntries (Index.deepMerge target (VObj fields)))
      = match next with
        | VObj _ =>
            Index.deepMerge
              (Value.or (Value.lookup key (Index.ownEntries target)) (VObj []))
              next
        | _ => next
        end).
Proof.
  intros Hp. destruct (plain_fields fields Hp) as [Hnd _].
  rewrite deepMerge_obj. cbn [Index.ownEntries]. split.
  - intros H. now apply lookup_assign_all_other.
  - intros next H. now apply lookup_assign_all_own.
Qed.

Lemma X16_merge_field_by_field_witness :
  Value.lookup "extraction"
    (Index.ownEntries
       (Index.deepMerge
          (VObj [("enabled"%string, VBool true);
                 ("extraction"%string,
                  VObj [("maxGapsPerExchange"%string, VNum 2);
                        ("keywords"%string, VArr [VStr (str "why")])])])
          (VObj [("extraction"%string,
                  VObj [("keywords"%string, VArr []);
                        ("entropyThreshold"%string, VNum 1)])])))
  = VObj [("maxGapsPerExchange"%string, VNum 2);
          ("keywords"%string, VArr []);
          ("entropyThreshold"%string, VNum 1)].
Proof.
  rewrite (proj2 (@X16_merge_field_by_field
                    (VObj [("enabled"%string, VBool true);
                           ("extraction"%string,
                            VObj [("maxGapsPerExchange"%string, VNum 2);
                                  ("keywords"%string, VArr [VStr (str "why")])])])
                    [("extraction"%string,
                      VObj [("keywords"%string, VArr []);
                            ("entropyThreshold"%string, VNum 1)])]
                    "extraction"%string
                    eq_refl)
             (VObj [("keywords"%string, VArr []);
                    ("entropyThreshold"%string, VNum 1)])).
  - reflexivity.
  - now left.
Defined.

(** X17.  Merging a plain object into a target without properties of its
    own ([{}], [undefined], a number) gives a copy of the object. *)
Theorem X17_merge_into_nothing_copies target fields :
  Index.ownEntries target = [] -> Index.plain (VObj fields) = true ->
  Index.deepMerge target (VObj fields) = VObj fields.
Proof.
  intros He Hp. rewrite deepMerge_obj, He.
  change (VObj (Index.assign_all fields []))
    with (Index.deepMerge (VObj []) (VObj fields)).
  now apply (@deepMerge_copy (VObj fields) Hp fields).
Qed.

Lemma X17_merge_into_nothing_copies_witness :
  Index.deepMerge VUndefined
    (VObj [("llm"%string, VObj [("model"%string, VStr (str "m"))]);
           ("enabled"%string, VBool false)])
  = VObj [("llm"%string, VObj [("model"%string, VStr (str "m"))]);
          ("enabled"%string, VBool false)].
Proof.
  apply X17_merge_into_nothing_copies; [reflexivity|].
  reflexivity.
Defined.

(** X18.  Merging the same plain object a second time changes nothing. *)
Theorem X18_merging_again_changes_nothing target fields :
  Index.plain (VObj fields) = true ->
  Index.deepMerge (Index.deepMerge target (VObj fields)) (VObj fields)
  = Index.deepMerge target (VObj fields).
Proof.
  intros Hp. now apply (@deepMerge_again (VObj fields) Hp fields).
Qed.

Lemma X18_merging_again_changes_nothing_witness :
  Index.deepMerge
    (Index.deepMerge (VObj [("passes"%string, VStr (str "off"))])
       (VObj [("passes"%string, VObj [("1"%string, VNull)])]))
    (VObj [("passes"%string, VObj [("1"%string, VNull)])])
  = Index.deepMerge (VObj [("passes"%string, VStr (str "off"))])
      (VObj [("passes"%string, VObj [("1"%string, VNull)])]).
Proof.
  apply X18_merging_again_changes_nothing.
  reflexivity.
Defined.

(** X19.  Passes that are not quoted do not reach the prompt: a pass whose
    number is not below the pass number, or that is not completed, or that
    has no output, can stand anywhere among the passes of the inquiry
    without changing the prompt. *)
Theorem X19_unquoted_passes_are_ignored inquiry before p after passNumber passPrompt :
  (passNumber <= Reflect.number p)%Z
  \/ Value.truthy (Reflect.completed p) = false
  \/ Value.truthy (Reflect.output p) = false ->
  Reflect.buildPrompt (Reflect.with_passes inquiry (Some (before ++ p :: after)))
    passNumber passPrompt
  = Reflect.buildPrompt (Reflect.with_passes inquiry (Some (before ++ after)))
      passNumber passPrompt.
Proof.
  intros H. unfold Reflect.buildPrompt.
  cbn [Reflect.with_passes Reflect.passes Reflect.question Reflect.source
       Reflect.context].
  rewrite !filter_app. cbn [filter].
  replace (Reflect.number p <? passNumber)%Z with
    (negb (passNumber <=? Reflect.number p)%Z)
    by (rewrite Z.leb_antisym; apply negb_involutive).
  destruct H as [H|[H|H]].
  - apply Z.leb_le in H. rewrite H. reflexivity.
  - rewrite H, andb_false_r. reflexivity.
  - rewrite H, andb_false_r. reflexivity.
Qed.

Lemma X19_unquoted_passes_are_ignored_witness :
  Reflect.buildPrompt
    (Reflect.mkInquiry
       (Some [Reflect.mkPass 1 (VStr (str "2026-01-01")) (VStr (str "Tides pull."));
              Reflect.mkPass 2 VNull VNull])
       tidal (str "session-7") None)
    2 (str "Deepen.")
  = Reflect.buildPrompt
      (Reflect.mkInquiry
         (Some [Reflect.mkPass 1 (VStr (str "2026-01-01")) (VStr (str "Tides pull."))])
         tidal (str "session-7") None)
      2 (str "Deepen.").
Proof.
  apply (@X19_unquoted_passes_are_ignored
           (Reflect.mkInquiry None tidal (str "session-7") None)
           [Reflect.mkPass 1 (VStr (str "2026-01-01")) (VStr (str "Tides pull."))]
           (Reflect.mkPass 2 VNull VNull) [] 2%Z (str "Deepen.")).
  left. simpl. lia.
Defined.

(** X20.  The prompt tells whether a pass was quoted: it is the prompt of
    the inquiry without passes, with the line [Prior passes: (none)], exactly
    when no pass is quoted. *)
Theorem X20_none_exactly_when_nothing_quoted inquiry passNumber passPrompt :
  Reflect.quoted passNumber inquiry = []
  <-> Reflect.buildPrompt inquiry passNumber passPrompt
      = Reflect.buildPrompt (Reflect.with_passes inquiry None) passNumber passPrompt.
Proof.
  unfold Reflect.buildPrompt.
  cbn [Reflect.with_passes Reflect.passes Reflect.question Reflect.source
       Reflect.context filter Reflect.prior_lines].
  fold (Reflect.quoted passNumber inquiry).
  destruct (Reflect.quoted passNumber inquiry) as [|p ps].
  - split; reflexivity.
  - split; [discriminate|]. intros H. exfalso.
    destruct (Reflect.prior_lines (p :: ps)) as [lines|e] eqn:L; [|discriminate H].
    assert (E : exists rest, Str.join [LF; LF] lines = "P"%char :: rest).
    { cbn [Reflect.prior_lines] in L.
      destruct (Value.toString (Reflect.output p)) as [printed|e]; [|discriminate L].
      destruct (Reflect.prior_lines ps) as [more|e]; [|discriminate L].
      injection L as <-. cbn [Str.join]. destruct more; eexists; reflexivity. }
    destruct E as [rest E]. rewrite E in H.
    assert (Inj : forall x y : list ascii, Normal x = Normal y -> x = y)
      by (intros x y K; now injection K).
    apply Inj in H. cbn [Str.join] in H.
    repeat (apply app_inv_head in H).
    discriminate H.
Qed.

(** X21.  Where a gap comes from: every gap returned is the trimmed match
    of one of the [GAP_PATTERNS] in the conversation text, or a trimmed
    sentence of it that ends with a question mark, has at least 30 code
    units, shows no document noise and has a question word or a pronoun
    followed by one of the listed verbs. *)
Theorem X21_gap_provenance clock s p corpus gaps :
  conversationText (messages p) = Normal corpus ->
  returned (identifyGaps clock s p) = Some gaps ->
  Forall (fun g => from_pass1 corpus (Gap.question g)
                   \/ from_pass2 corpus (Gap.question g)) gaps.
Proof.
  intros Hc H. apply returned_Returns in H. destruct H as [s' H].
  apply identifyGaps_returns in H. destruct H as [->|(text & T & E)]; [constructor|].
  rewrite Hc in T. injection T as <-.
  apply (@extractGapsFromText_all corpus (maxGapsOf p)
           (fun g => from_pass1 corpus g \/ from_pass2 corpus g)) in E.
  - exact (proj1 (Forall_map _ _ _) E).
  - intros re li m li' Hre X _ _. left. now exists re, li, m, li'.
  - intros sentence Hin Q L _ D V. right. exists sentence.
    apply Nat.ltb_ge in L. repeat split; assumption.
Qed.

Lemma X21_gap_provenance_witness :
  Forall (fun g => from_pass1 tidal (Gap.question g)
                   \/ from_pass2 tidal (Gap.question g))
    [wrap clock1 None tidal (8 # 10) 0 tidal].
Proof.
  apply (@X21_gap_provenance clock1 fresh (exchange [user tidal] (8 # 10) None)).
  - vm_compute. reflexivity.
  - vm_compute. reflexivity.
Defined.

(** ** The gate *)

(** X22.  The admission gate, where the call comes to it.  When the last
    six messages are read without a throw and give the conversation text
    [corpus]: if the entropy is strictly below the threshold and no keyword
    occurs, in any letter case, in the text, identifyGaps returns the empty
    array; and it returns the empty array, whatever the entropy and the
    keywords, when the text is empty. *)
Theorem X22_admission_gate clock s p corpus :
  conversationText (messages p) = Normal corpus ->
  ((entropyOf p < thresholdOf p)%Q ->
   (forall k, In k (keywordsOf p) ->
      ~ occurs (Str.toLowerCase k) (Str.toLowerCase corpus)) ->
   identifyGaps clock s p = Returns [] s)
  /\ (corpus = [] -> identifyGaps clock s p = Returns [] s).
Proof.
  intros Hc. unfold identifyGaps. rewrite Hc. split.
  - intros He Hk. destruct corpus as [|c corpus]; [reflexivity|].
    rewrite (Qltb_true He), (keywordHit_false _ _ Hk). reflexivity.
  - intros ->. reflexivity.
Qed.

Lemma X22_admission_gate_witness :
  identifyGaps clock1 fresh (exchange [user tidal] (1 # 10) None) = Returns [] fresh
  /\ identifyGaps clock1 fresh (exchange [] (9 # 10) None) = Returns [] fresh.
Proof.
  split.
  - apply (proj1 (@X22_admission_gate clock1 fresh
                    (exchange [user tidal] (1 # 10) None) tidal eq_refl)).
    + reflexivity.
    + intros k [].
  - apply (proj2 (@X22_admission_gate clock1 fresh
                    (exchange [] (9 # 10) None) [] eq_refl)).
    reflexivity.
Defined.
